(** * KML upload pipeline: a shallow embedding of the client-side upload code

    The development follows the TypeScript sources of the dashboard:

    - [components/forms/file-upload.tsx]: the [FileUpload] component
      ([validateFile], [handleFileSelect], [handleUpload], [clearFile] and
      the conditions under which its buttons are rendered);
    - [lib/api-service]: [requestPresignedUrl], [uploadFileToS3],
      [processKmlFile];
    - [app/api/presigned-url/route.ts] and [app/api/upload-proxy/route.ts]:
      the two proxy routes.

    JavaScript strings are modelled by [string] (one [ascii] per code unit,
    so the development speaks about file names and URLs written in ASCII).
    Numbers that are only compared or printed (byte counts, HTTP statuses,
    clock readings) are modelled by [Z]; the Numbers of an upload progress,
    which come out of a division, are IEEE binary64 values ([spec_float]
    with 53 bits of precision).  A promise is modelled by its outcome: a
    rejected promise is [inl message], a fulfilled one is [inr value]. *)

From Stdlib Require Import String Ascii List ZArith Lia Bool.
From Stdlib Require Import DecimalString DecimalPos SpecFloat Reals Lra.
Import ListNotations.
Local Open Scope string_scope.
Local Open Scope Z_scope.

Set Implicit Arguments.

(* ===================================================================== *)
(** * JavaScript string primitives *)
(* ===================================================================== *)

Module JS.

(** [String.prototype.toLowerCase], on ASCII letters. *)
Definition lower_ascii (c : ascii) : ascii :=
  let n := N_of_ascii c in
  if ((65 <=? n) && (n <=? 90))%N then ascii_of_N (n + 32) else c.

Fixpoint toLowerCase (s : string) : string :=
  match s with
  | EmptyString => EmptyString
  | String c s' => String (lower_ascii c) (toLowerCase s')
  end.

(** [s.split(sep)] for a separator of one character.  The array is never
    empty: [''.split('/')] is [['']]. *)
Fixpoint split (sep : ascii) (s : string) : list string :=
  match s with
  | EmptyString => [EmptyString]
  | String c s' =>
      if Ascii.eqb c sep then EmptyString :: split sep s'
      else match split sep s' with
           | [] => [String c EmptyString]
           | w :: ws => String c w :: ws
           end
  end.

(** [arr.pop()]: the last element, [undefined] ([None]) on an empty array. *)
Fixpoint pop (A : Type) (l : list A) : option A :=
  match l with
  | [] => None
  | [x] => Some x
  | _ :: l' => pop l'
  end.

(** [arr[0]]. *)
Definition first (A : Type) (l : list A) : option A :=
  match l with
  | [] => None
  | x :: _ => Some x
  end.

(** [arr.join(sep)]. *)
Fixpoint join (sep : string) (l : list string) : string :=
  match l with
  | [] => ""
  | [x] => x
  | x :: l' => x ++ sep ++ join sep l'
  end.

(** [arr.includes(x)] on an array of strings. *)
Definition array_includes (l : list string) (x : string) : bool :=
  existsb (String.eqb x) l.

(** [s.startsWith(p)]. *)
Fixpoint startsWith (s p : string) : bool :=
  match p, s with
  | EmptyString, _ => true
  | String _ _, EmptyString => false
  | String a p', String b s' => Ascii.eqb a b && startsWith s' p'
  end.

(** [s.includes(sub)]. *)
Fixpoint includes (s sub : string) : bool :=
  startsWith s sub ||
  match s with
  | EmptyString => false
  | String _ s' => includes s' sub
  end.

(** [s.endsWith(suf)]. *)
Fixpoint endsWith (s suf : string) : bool :=
  String.eqb s suf ||
  match s with
  | EmptyString => false
  | String _ s' => endsWith s' suf
  end.

(** [s.substr(start, len)] for non-negative arguments. *)
Fixpoint substr (start len : nat) (s : string) : string :=
  match start, len, s with
  | _, _, EmptyString => EmptyString
  | S start', _, String _ s' => substr start' len s'
  | O, O, _ => EmptyString
  | O, S len', String c s' => String c (substr O len' s')
  end.

(** [s.replace(/[-:]/g, '')]: every occurrence of a character of the class
    is dropped. *)
Fixpoint remove_chars (drop : ascii -> bool) (s : string) : string :=
  match s with
  | EmptyString => EmptyString
  | String c s' =>
      if drop c then remove_chars drop s' else String c (remove_chars drop s')
  end.

(** An integer in a template literal or after [toString()]. *)
Definition show (z : Z) : string := NilZero.string_of_int (Z.to_int z).

(** Truthiness of a value that is a string or [undefined]. *)
Definition truthy (v : option string) : bool :=
  match v with
  | Some (String _ _) => true
  | _ => false
  end.

(** [v || d] when [v] is a string or [undefined] and [d] a string. *)
Definition or_else (v : option string) (d : string) : string :=
  match v with
  | Some (String c s) => String c s
  | _ => d
  end.

(** The character [c] occurs in [s]. *)
Fixpoint occurs (c : ascii) (s : string) : bool :=
  match s with
  | EmptyString => false
  | String a s' => Ascii.eqb a c || occurs c s'
  end.

End JS.

Example split_url :
  JS.split "/" "https://h/b/k.kml?s=1" = ["https:"; ""; "h"; "b"; "k.kml?s=1"].
Proof. reflexivity. Qed.

Example split_empty : JS.split "/" "" = [""].
Proof. reflexivity. Qed.

Example show_examples :
  JS.show 0 = "0" /\ JS.show 50 = "50" /\ JS.show 404 = "404" /\ JS.show (-3) = "-3".
Proof. repeat split; reflexivity. Qed.

Example substr_examples :
  JS.substr 2 9 "0.4fzyo82mvyr" = "4fzyo82mv" /\ JS.substr 2 9 "0.i" = "i" /\
  JS.substr 2 9 "0" = "".
Proof. repeat split; reflexivity. Qed.

Example endsWith_examples :
  JS.endsWith "a.kml" ".kml" = true /\ JS.endsWith "kml" ".kml" = false /\
  JS.includes "application/vnd.google-earth.kml+xml" "application/vnd.google-earth.kml" = true.
Proof. repeat split; reflexivity. Qed.

(* ===================================================================== *)
(** * JavaScript numbers *)
(* ===================================================================== *)

(** A Number is an IEEE 754 binary64 value; [/] and [*] are the correctly
    rounded operations of the standard library's specification of binary
    floating point. *)
Module Num.

Definition prec : Z := 53.
Definition emax : Z := 1024.

Definition JSNumber : Type := spec_float.

(** The Number nearest to an integer (integers below [2^53] are exact). *)
Definition of_Z (z : Z) : JSNumber := binary_normalize prec emax z 0 false.

Definition div (x y : JSNumber) : JSNumber := SFdiv prec emax x y.
Definition mul (x y : JSNumber) : JSNumber := SFmul prec emax x y.

(** [Math.round]: the integral Number closest to [x], the one closer to
    +Infinity when two are equally close; NaN, the infinities and the
    zeros are returned unchanged.  A finite [x] is [+-m * 2^e]; when
    [e < 0] the result is [floor (x + 1/2)], computed exactly. *)
Definition Math_round (x : JSNumber) : JSNumber :=
  match x with
  | S754_finite s m e =>
      if 0 <=? e then x
      else
        let v := cond_Zopp s (Zpos m) in
        binary_normalize prec emax ((2 * v + 2 ^ (- e)) / 2 ^ (- e + 1)) 0 s
  | _ => x
  end.

End Num.

Example round_two_thirds :
  Num.Math_round (Num.mul (Num.div (Num.of_Z 2) (Num.of_Z 3)) (Num.of_Z 100)) = Num.of_Z 67.
Proof. vm_compute. reflexivity. Qed.

Example round_29_200 :
  Num.Math_round (Num.mul (Num.div (Num.of_Z 29) (Num.of_Z 200)) (Num.of_Z 100)) = Num.of_Z 14.
Proof. vm_compute. reflexivity. Qed.

Example round_half_up :
  Num.Math_round (Num.div (Num.of_Z 5) (Num.of_Z 2)) = Num.of_Z 3 /\
  Num.Math_round (Num.div (Num.of_Z (-5)) (Num.of_Z 2)) = Num.of_Z (-2) /\
  Num.Math_round (Num.div (Num.of_Z (-1)) (Num.of_Z 4)) = S754_zero true /\
  Num.Math_round (Num.div (Num.of_Z 0) (Num.of_Z 0)) = S754_nan.
Proof. vm_compute. repeat split; reflexivity. Qed.

(* ===================================================================== *)
(** * Types of [lib/api-service] *)
(* ===================================================================== *)

(** The part of a browser [File] the code reads. *)
Record File := { name : string; type : string; size : Z }.

Record UploadProgress := {
  loaded : Num.JSNumber;
  total : Num.JSNumber;
  percentage : Num.JSNumber
}.

Inductive Status := Idle | Uploading | Success | Error.

Record UploadStatus := {
  status : Status;
  progress : UploadProgress;
  error : option string;
  fileKey : option string
}.

Record PresignedUrlResponse := {
  presignedUrl : string;
  pr_fileKey : string;
  expiresIn : Z;
  fields : list (string * string)
}.

(** The outcome of a promise: [inl message] when it rejects with
    [new Error(message)], [inr v] when it resolves to [v]. *)
Definition Outcome (A : Type) : Type := (string + A)%type.

(** What [const data = await response.json()] leaves behind: the call
    rejects with [message] (the body is not JSON), or [data] is [null], or
    [data] is another JSON value, read through the fields the code looks at.
    Reading a property of [null] throws a [TypeError]; [thrown] is its
    message, which the engine words. *)
Inductive Parsed (A : Type) : Type :=
| not_json (message : string)
| json_null (thrown : string)
| json (data : A).

Arguments not_json {A} message.
Arguments json_null {A} thrown.

(* ===================================================================== *)
(** * The [FileUpload] component *)
(* ===================================================================== *)

Module FileUpload.

(** The props that configure validation, with their defaults. *)
Record Props := { maxFileSize : Z; acceptedTypes : list string }.

Definition defaultProps : Props :=
  {| maxFileSize := 50; acceptedTypes := [".kml"; ".kmz"] |}.

(** Calls of the [onUploadComplete] and [onUploadError] props. *)
Inductive Callback :=
| onUploadComplete (fileKey analysisId : string)
| onUploadError (message : string).

(** The two [useState] cells and the calls made to the parent so far. *)
Record State := {
  uploadStatus : UploadStatus;
  selectedFile : option File;
  calls : list Callback
}.

Definition noProgress : UploadProgress :=
  {| loaded := S754_zero false; total := S754_zero false;
     percentage := S754_zero false |}.

Definition idleStatus : UploadStatus :=
  {| status := Idle; progress := noProgress; error := None; fileKey := None |}.

Definition errorStatus (message : string) : UploadStatus :=
  {| status := Error; progress := noProgress; error := Some message;
     fileKey := None |}.

Definition initial : State :=
  {| uploadStatus := idleStatus; selectedFile := None; calls := [] |}.

(** ['.' + file.name.split('.').pop()?.toLowerCase()] *)
Definition fileExtension (fileName : string) : string :=
  "." ++ match option_map JS.toLowerCase (JS.pop (JS.split "." fileName)) with
         | Some e => e
         | None => "undefined"
         end.

(** [validateFile]: [None] is [null], [Some message] a validation error. *)
Definition validateFile (p : Props) (file : File) : option string :=
  if maxFileSize p * 1024 * 1024 <? size file then
    Some ("File size must be less than " ++ JS.show (maxFileSize p) ++ "MB")
  else if negb (JS.array_includes (acceptedTypes p) (fileExtension (name file))) then
    Some ("Only " ++ JS.join ", " (acceptedTypes p) ++ " files are allowed")
  else None.

(** [handleFileSelect] *)
Definition handleFileSelect (p : Props) (file : File) (s : State) : State :=
  let validationError := validateFile p file in
  if JS.truthy validationError then
    let message := JS.or_else validationError "" in
    {| uploadStatus := errorStatus message;
       selectedFile := selectedFile s;
       calls := calls s ++ [onUploadError message] |}
  else
    {| uploadStatus := idleStatus;
       selectedFile := Some file;
       calls := calls s |}.

(** [handleUpload] up to its first [await]: nothing without a selected
    file, otherwise [setUploadStatus(prev => ({ ...prev, status: 'uploading' }))]. *)
Definition handleUpload_start (s : State) : State :=
  match selectedFile s with
  | None => s
  | Some _ =>
      let prev := uploadStatus s in
      {| uploadStatus := {| status := Uploading; progress := progress prev;
                            error := error prev; fileKey := fileKey prev |};
         selectedFile := selectedFile s;
         calls := calls s |}
  end.

(** The progress callback handed to [uploadFileToS3]:
    [setUploadStatus(prev => ({ ...prev, progress }))]. *)
Definition handleUpload_progress (pr : UploadProgress) (s : State) : State :=
  let prev := uploadStatus s in
  {| uploadStatus := {| status := status prev; progress := pr;
                        error := error prev; fileKey := fileKey prev |};
     selectedFile := selectedFile s;
     calls := calls s |}.

(** [handleUpload] once the three awaited stages are over: the code after
    the last [await] when all resolved, the [catch] block when one threw. *)
Definition handleUpload_settle (r : Outcome (string * string)) (s : State) : State :=
  match r with
  | inr (key, analysisId) =>
      let prev := uploadStatus s in
      {| uploadStatus := {| status := Success; progress := progress prev;
                            error := error prev; fileKey := Some key |};
         selectedFile := selectedFile s;
         calls := calls s ++ [onUploadComplete key analysisId] |}
  | inl errorMessage =>
      {| uploadStatus := errorStatus errorMessage;
         selectedFile := selectedFile s;
         calls := calls s ++ [onUploadError errorMessage] |}
  end.

(** [clearFile] *)
Definition clearFile (s : State) : State :=
  {| uploadStatus := idleStatus; selectedFile := None; calls := calls s |}.

(** The operations that reach the component: a file chosen or dropped,
    the Upload button, the callbacks of an upload in flight, and the
    clear buttons. *)
Inductive Op :=
| SelectFile (file : File)
| StartUpload
| TransferProgress (pr : UploadProgress)
| UploadSettled (r : Outcome (string * string))
| ClearFile.

Definition step (p : Props) (s : State) (o : Op) : State :=
  match o with
  | SelectFile file => handleFileSelect p file s
  | StartUpload => handleUpload_start s
  | TransferProgress pr => handleUpload_progress pr s
  | UploadSettled r => handleUpload_settle r s
  | ClearFile => clearFile s
  end.

Definition isSome (A : Type) (o : option A) : bool :=
  match o with Some _ => true | None => false end.

Definition status_eqb (a b : Status) : bool :=
  match a, b with
  | Idle, Idle | Uploading, Uploading | Success, Success | Error, Error => true
  | _, _ => false
  end.

(** What the rendered component offers in state [s]: the card accepts a
    drop in every state; the Upload button is rendered under
    [selectedFile && uploadStatus.status === 'idle']; [clearFile] is bound
    to the X button of the selected file and to the buttons shown in the
    success and error states.  The callbacks of an upload in flight are not
    held back by anything in the component. *)
Definition offered (s : State) (o : Op) : bool :=
  match o with
  | SelectFile _ => true
  | StartUpload =>
      isSome (selectedFile s) && status_eqb (status (uploadStatus s)) Idle
  | TransferProgress _ => true
  | UploadSettled _ => true
  | ClearFile =>
      isSome (selectedFile s)
      || status_eqb (status (uploadStatus s)) Success
      || status_eqb (status (uploadStatus s)) Error
  end.

(** The states visited by a sequence of operations, with the operation
    that led to each transition. *)
Fixpoint transitions (p : Props) (s : State) (ops : list Op)
  : list (Status * Op * Status) :=
  match ops with
  | [] => []
  | o :: ops' =>
      let s' := step p s o in
      (status (uploadStatus s), o, status (uploadStatus s')) :: transitions p s' ops'
  end.

(** Every operation of the sequence is offered in the state it acts on. *)
Fixpoint all_offered (p : Props) (s : State) (ops : list Op) : bool :=
  match ops with
  | [] => true
  | o :: ops' => offered s o && all_offered p (step p s o) ops'
  end.

(** Position of a status along Idle -> Uploading -> {Success | Error}. *)
Definition rank (st : Status) : Z :=
  match st with
  | Idle => 0
  | Uploading => 1
  | Success | Error => 2
  end.

End FileUpload.

(* ===================================================================== *)
(** * [lib/api-service] *)
(* ===================================================================== *)

(** The browser's [XMLHttpRequest], as far as [uploadFileToS3] relies on it:
    a request ends with exactly one of the events [load], [error] and
    [timeout]; when the [timeout] attribute is not zero and the request has
    not completed after that many milliseconds, it is terminated and
    [timeout] is fired; without a timeout a request the network never
    answers stays pending. *)
Module Xhr.

Inductive Final := load (status : Z) | error | timeout.

(** [xhr.open(method, url)] parses [url] against the base URL of the page
    and throws a [SyntaxError] [DOMException] when it does not parse.  Which
    texts parse is the browser's to say: an [Opening] gives, for a URL, the
    message of the exception, or [None] when the request is opened. *)
Definition Opening : Type := string -> option string.

(** What the network does with a request, and after how many
    milliseconds. *)
Inductive Network :=
| responds (after_ms : Z) (status : Z)
| transport_fails (after_ms : Z)
| silent.

Definition expired (timeout_ms after_ms : Z) : bool :=
  (0 <? timeout_ms) && (timeout_ms <=? after_ms).

Definition final (timeout_ms : Z) (n : Network) : option Final :=
  match n with
  | responds t st => Some (if expired timeout_ms t then timeout else load st)
  | transport_fails t => Some (if expired timeout_ms t then timeout else error)
  | silent => if 0 <? timeout_ms then Some timeout else None
  end.

(** A [progress] event of [xhr.upload].  [loaded] and [total] are unsigned
    64-bit integers; the script reads them as the nearest Numbers. *)
Record ProgressEvent := {
  lengthComputable : bool;
  ev_loaded : Z;
  ev_total : Z
}.

End Xhr.

Module Api.

(** The JSON body of a response of [/api/presigned-url] when it is not
    [null], read through the fields the client looks at; [None] is an absent
    field (a JSON number, string, boolean or array has none of them). *)
Record ApiData := {
  d_presignedUrl : option string;
  d_fileKey : option string;
  d_expiresIn : option Z;
  d_fields : option (list (string * string))
}.

(** What [fetch] and [response.json()] can do: [fetch] rejects, or a
    response arrives, with what [response.json()] would make of its body. *)
Inductive FetchResult :=
| fetch_rejects (message : string)
| fetch_response (status : Z) (statusText : string) (body : Parsed ApiData).

(** The request issued by [requestPresignedUrl]; the body is the object
    given to [JSON.stringify]. *)
Record Request := {
  url : string;
  method : string;
  contentType : string;
  body_fileName : string
}.

(** [response.ok] *)
Definition ok (status : Z) : bool := (200 <=? status) && (status <=? 299).

Definition sizeLimit : Z := 50 * 1024 * 1024.

Definition kmlType : string := "application/vnd.google-earth.kml".
Definition kmzType : string := "application/vnd.google-earth.kmz".

Definition tooLargeMessage : string := "File size exceeds 50MB limit".
Definition wrongTypeMessage : string := "Only KML and KMZ files are allowed".
Definition missingUrlMessage : string :=
  "Invalid response from server: missing presignedUrl".
Definition corsMessage : string :=
  "CORS Error: The server is returning duplicate CORS headers. Please fix the backend Lambda function to return only one Access-Control-Allow-Origin header.".

(** The condition of the second [if] of [requestPresignedUrl]. *)
Definition typeRejected (fileName fileType : string) : bool :=
  negb (JS.includes fileType kmlType)
  && negb (JS.includes fileType kmzType)
  && negb (JS.endsWith (JS.toLowerCase fileName) ".kml")
  && negb (JS.endsWith (JS.toLowerCase fileName) ".kmz").

(** [number || 3600] *)
Definition number_or (v : option Z) (d : Z) : Z :=
  match v with
  | Some 0 | None => d
  | Some n => n
  end.

(** The body of the [try] block once [fetch] has settled.  [now_key] and
    [now_fields] are the two readings of [Date.now()]. *)
Definition readResponse (now_key now_fields : Z) (fileName fileType : string)
    (r : FetchResult) : Outcome PresignedUrlResponse :=
  match r with
  | fetch_rejects message => inl message
  | fetch_response st statusText body =>
      if negb (ok st) then
        inl ("Failed to get presigned URL: " ++ JS.show st ++ " " ++ statusText)
      else
        match body with
        | not_json message => inl message
        | json_null thrown => inl thrown
        | json data =>
            if negb (JS.truthy (d_presignedUrl data)) then inl missingUrlMessage
            else
              inr {| presignedUrl := JS.or_else (d_presignedUrl data) "";
                     pr_fileKey :=
                       JS.or_else (d_fileKey data)
                         ("kml-uploads/" ++ JS.show now_key ++ "-" ++ fileName);
                     expiresIn := number_or (d_expiresIn data) 3600;
                     fields :=
                       match d_fields data with
                       | Some f => f
                       | None =>
                           [("Content-Type", fileType);
                            ("x-amz-meta-original-name", fileName);
                            ("x-amz-meta-upload-timestamp", JS.show now_fields)]
                       end |}
        end
  end.

(** The [catch] block: every error thrown in the [try] is rethrown under
    a new message. *)
Definition rethrow (A : Type) (r : Outcome A) : Outcome A :=
  match r with
  | inl message =>
      if JS.includes message "CORS" || JS.includes message "Access-Control-Allow-Origin"
      then inl corsMessage
      else inl ("Failed to request presigned URL: " ++ message)
  | inr v => inr v
  end.

(** [requestPresignedUrl]: the requests issued and the outcome of the
    promise.  [fetch] stands for the network behind [/api/presigned-url]. *)
Definition requestPresignedUrl (fetch : Request -> FetchResult)
    (now_key now_fields : Z) (fileName fileType : string) (fileSize : Z)
  : list Request * Outcome PresignedUrlResponse :=
  if sizeLimit <? fileSize then ([], inl tooLargeMessage)
  else if typeRejected fileName fileType then ([], inl wrongTypeMessage)
  else
    let request :=
      {| url := "/api/presigned-url"; method := "POST";
         contentType := "application/json";
         body_fileName := "input_kml_files/" ++ fileName |} in
    ([request],
     rethrow (readResponse now_key now_fields fileName fileType (fetch request))).

(** [presignedUrl.split('/').pop()?.split('?')[0] || `input_kml_files/${Date.now()}-${file.name}`],
    the expression shared by [uploadFileToS3] and the upload relay. *)
Definition extractFileKey (now : Z) (fileName presignedUrl : string) : string :=
  let parsed :=
    match JS.pop (JS.split "/" presignedUrl) with
    | Some segment => JS.first (JS.split "?" segment)
    | None => None
    end in
  JS.or_else parsed ("input_kml_files/" ++ JS.show now ++ "-" ++ fileName).

(** The listener of [xhr.upload]'s [progress] event: the argument of the
    [onProgress] call it makes, if it makes one ([onProgress] is given). *)
Definition onProgressEvent (ev : Xhr.ProgressEvent) : option UploadProgress :=
  if Xhr.lengthComputable ev then
    let l := Num.of_Z (Xhr.ev_loaded ev) in
    let t := Num.of_Z (Xhr.ev_total ev) in
    Some {| loaded := l; total := t;
            percentage := Num.Math_round (Num.mul (Num.div l t) (Num.of_Z 100)) |}
  else None.

(** [xhr.timeout = 30000] *)
Definition uploadTimeout : Z := 30000.

Definition timeoutMessage : string := "Upload timed out".
Definition networkMessage : string := "Upload failed due to network error".

(** The [load], [error] and [timeout] listeners. *)
Definition onFinal (now : Z) (file : File) (presignedUrl : string)
    (ev : Xhr.Final) : Outcome string :=
  match ev with
  | Xhr.load st =>
      if (200 <=? st) && (st <? 300) then
        inr (extractFileKey now (name file) presignedUrl)
      else inl ("Upload failed with status: " ++ JS.show st)
  | Xhr.error => inl networkMessage
  | Xhr.timeout => inl timeoutMessage
  end.

(** [uploadFileToS3]: the [onProgress] calls made for the progress events
    delivered, and the outcome of the promise ([None] while it is
    pending).  When [xhr.open] throws, the executor of the promise ends
    there: the promise rejects with the exception (a [DOMException] is an
    [Error], so its message is what [handleUpload] shows), [send] is not
    reached and no event is delivered. *)
Definition uploadFileToS3 (opens : Xhr.Opening) (now : Z) (file : File)
    (presignedUrl : string) (events : list Xhr.ProgressEvent) (net : Xhr.Network)
  : list UploadProgress * option (Outcome string) :=
  match opens presignedUrl with
  | Some message => ([], Some (inl message))
  | None =>
      (flat_map (fun ev => match onProgressEvent ev with
                           | Some p => [p]
                           | None => []
                           end) events,
       option_map (onFinal now file presignedUrl) (Xhr.final uploadTimeout net))
  end.

(** [processKmlFile].  [now] is the reading of [Date.now()] and [random36]
    the text [Math.random().toString(36)] of the draw: ["0"] for zero,
    otherwise ["0."] followed by the base-36 digits that tell the drawn
    Number from its neighbours. *)
Definition processKmlFile (now : Z) (random36 : string) (fileKey : string)
  : Outcome string :=
  inr ("analysis-" ++ JS.show now ++ "-" ++ JS.substr 2 9 random36).

End Api.

(* ===================================================================== *)
(** * The proxy routes *)
(* ===================================================================== *)

Module Routes.

Inductive Body :=
| error_body (message : string)
| credentials_body (c : PresignedUrlResponse)
| upload_body (success : bool) (key message : string).

(** The [NextResponse] a handler returns: status, JSON body and headers
    (names of headers are case-insensitive and their order carries no
    meaning; what the server adds when it sends the reply is not part of
    it). *)
Record Reply := {
  reply_status : Z;
  reply_body : Body;
  reply_headers : list (string * string)
}.

Definition corsHeaders : list (string * string) :=
  [("Access-Control-Allow-Origin", "*");
   ("Access-Control-Allow-Methods", "POST, OPTIONS");
   ("Access-Control-Allow-Headers", "Content-Type")].

(** The header [Response.json] adds when the headers given do not set the
    content type; no call of the routes sets it. *)
Definition jsonHeaders : list (string * string) :=
  [("content-type", "application/json")].

(** The statuses under which the [Response] constructor refuses a body:
    those outside 200-599 (a [RangeError]) and the null-body statuses 204,
    205 and 304 (a [TypeError]; the other two, 101 and 103, are already out
    of range). *)
Definition refused (status : Z) : bool :=
  (status <? 200) || (599 <? status)
  || (status =? 204) || (status =? 205) || (status =? 304).

Definition jsonReply (body : Body) (status : Z) (headers : list (string * string))
  : Reply :=
  {| reply_status := status; reply_body := body;
     reply_headers := (headers ++ jsonHeaders)%list |}.

(** [NextResponse.json(body, { status, headers })]; [None] when it
    throws. *)
Definition NextResponse_json (body : Body) (status : Z)
    (headers : list (string * string)) : option Reply :=
  if refused status then None else Some (jsonReply body status headers).

(** The JSON the Lambda function answers with when it is not [null];
    [None] is an absent field. *)
Record LambdaData := {
  uploadUrl : option string;
  l_fileKey : option string;
  l_expiresIn : option Z;
  l_fields : option (list (string * string))
}.

(** What the call to the Lambda function can do. *)
Inductive Upstream :=
| upstream_rejects (message : string)
| upstream_response (status : Z) (statusText : string) (body : Parsed LambdaData).

(** [new Date().toISOString().replace(/[-:]/g, '').split('.')[0]] followed
    by [Z]; [iso] is the text [toISOString()] returned. *)
Definition amzDate (iso : string) : string :=
  match JS.first (JS.split "."
          (JS.remove_chars (fun c => Ascii.eqb c "-" || Ascii.eqb c ":") iso)) with
  | Some d => d
  | None => "undefined"
  end ++ "Z".

(** [fileName.split('/').pop() || fileName] *)
Definition originalName (fileName : string) : string :=
  JS.or_else (JS.pop (JS.split "/" fileName)) fileName.

Definition mockUrl (iso fileName : string) : string :=
  "https://mock-s3-bucket.s3.amazonaws.com/" ++ fileName
  ++ "?X-Amz-Algorithm=AWS4-HMAC-SHA256&X-Amz-Credential=mock&X-Amz-Date="
  ++ amzDate iso
  ++ "&X-Amz-Expires=3600&X-Amz-SignedHeaders=host&X-Amz-Signature=mock".

(** [POST] of [app/api/presigned-url/route.ts].  [request] is the
    outcome of [const { fileName } = await request.json()]: an exception
    ([inl]: the body is not JSON, or it is [null], which cannot be
    destructured) or the [fileName] field of the body, a string as the
    client sends it.  The result lists the file names forwarded to the
    Lambda function and the reply.  The statuses 200, 400 and 500 are
    accepted by [NextResponse.json]; the status of the Lambda function need
    not be, and then the [catch] block answers. *)
Definition presignedUrl_POST (request : string + option string)
    (upstream : string -> Upstream) (iso : string) (now : Z)
  : list string * Reply :=
  let internalError := jsonReply (error_body "Internal server error") 500 [] in
  match request with
  | inl _ => ([], internalError)
  | inr fileName =>
      if negb (JS.truthy fileName) then
        ([], jsonReply (error_body "fileName is required") 400 [])
      else
        let fileName := JS.or_else fileName "" in
        ([fileName],
         match upstream fileName with
         | upstream_rejects _ => internalError
         | upstream_response st statusText body =>
             if negb (Api.ok st) then
               match NextResponse_json
                       (error_body ("Lambda function returned " ++ JS.show st
                                    ++ ": " ++ statusText)) st [] with
               | Some reply => reply
               | None => internalError
               end
             else
               match body with
               | not_json _ => internalError
               | json_null _ => internalError
               | json data =>
                   if negb (JS.truthy (uploadUrl data)) then
                     jsonReply
                       (credentials_body
                          {| presignedUrl := mockUrl iso fileName;
                             pr_fileKey := fileName;
                             expiresIn := 3600;
                             fields :=
                               [("Content-Type", "application/vnd.google-earth.kml");
                                ("x-amz-meta-original-name", originalName fileName);
                                ("x-amz-meta-upload-timestamp", JS.show now)] |})
                       200 corsHeaders
                   else
                     jsonReply
                       (credentials_body
                          {| presignedUrl := JS.or_else (uploadUrl data) "";
                             pr_fileKey := JS.or_else (l_fileKey data) fileName;
                             expiresIn := Api.number_or (l_expiresIn data) 3600;
                             fields :=
                               match l_fields data with
                               | Some f => f
                               | None =>
                                   [("x-amz-meta-original-name", originalName fileName);
                                    ("x-amz-meta-upload-timestamp", JS.show now)]
                               end |})
                       200 corsHeaders
               end
         end)
  end.

(** What the [PUT] to the object store can do. *)
Inductive Store := store_rejects (message : string) | store_response (status : Z).

(** [POST] of [app/api/upload-proxy/route.ts].  [form] is what
    [request.formData()] gives: an exception or the [file] and
    [presignedUrl] entries.  The result lists the URLs written to and the
    reply. *)
Definition uploadProxy_POST (form : string + (option File * option string))
    (store : string -> Store) (now : Z) : list string * Reply :=
  let failed := jsonReply (error_body "Upload failed") 500 [] in
  match form with
  | inl _ => ([], failed)
  | inr (Some file, Some (String c u)) =>
      let presignedUrl := String c u in
      ([presignedUrl],
       match store presignedUrl with
       | store_rejects _ => failed
       | store_response st =>
           if negb (Api.ok st) then failed
           else
             jsonReply
               (upload_body true (Api.extractFileKey now (name file) presignedUrl)
                  "File uploaded successfully")
               200 []
       end)
  | inr _ =>
      ([], jsonReply (error_body "File and presignedUrl are required") 400 [])
  end.

End Routes.

(* ===================================================================== *)
(** * The pattern of tracking identifiers *)
(* ===================================================================== *)

Module Pattern.

Definition digit (c : ascii) : bool :=
  let n := N_of_ascii c in ((48 <=? n) && (n <=? 57))%N.

(** The class [[a-z0-9]]. *)
Definition base36 (c : ascii) : bool :=
  let n := N_of_ascii c in digit c || ((97 <=? n) && (n <=? 122))%N.

Fixpoint all (p : ascii -> bool) (s : string) : bool :=
  match s with
  | EmptyString => true
  | String c s' => p c && all p s'
  end.

(** The longest prefix of characters in [p], and the rest. *)
Fixpoint span (p : ascii -> bool) (s : string) : string * string :=
  match s with
  | EmptyString => (EmptyString, EmptyString)
  | String c s' =>
      if p c then let (a, b) := span p s' in (String c a, b)
      else (EmptyString, s)
  end.

Fixpoint strip (p s : string) : option string :=
  match p, s with
  | EmptyString, _ => Some s
  | String a p', String b s' => if Ascii.eqb a b then strip p' s' else None
  | String _ _, EmptyString => None
  end.

(** The whole of [s] matches [analysis-\d+-[a-z0-9]{9}].  After the
    prefix the digits are taken greedily: the character that follows them
    in a match is [-], which is not a digit. *)
Definition analysisId (s : string) : bool :=
  match strip "analysis-" s with
  | None => false
  | Some rest =>
      match span digit rest with
      | (EmptyString, _) => false
      | (_, String "-" tail) => (String.length tail =? 9)%nat && all base36 tail
      | _ => false
      end
  end.

End Pattern.

Example pattern_examples :
  Pattern.analysisId "analysis-1700000000000-4fzyo82mv" = true /\
  Pattern.analysisId "analysis-1700000000000-i" = false /\
  Pattern.analysisId "analysis--4fzyo82mv" = false /\
  Pattern.analysisId "analysis-17-4fzyo82mvx" = false.
Proof. repeat split; reflexivity. Qed.

(* ===================================================================== *)
(** * [handleUpload] as a whole *)
(* ===================================================================== *)

Module Pipeline.

(** Everything outside the component that one run of [handleUpload]
    depends on. *)
Record World := {
  fetch : Api.Request -> Api.FetchResult;
  now_key : Z;
  now_fields : Z;
  opens : Xhr.Opening;
  events : list Xhr.ProgressEvent;
  network : Xhr.Network;
  now_transfer : Z;
  now_process : Z;
  random36 : string
}.

(** The three awaited stages in sequence; the first rejection ends the
    run.  [None]: the run never leaves its second [await]. *)
Definition stages (w : World) (file : File)
  : list UploadProgress * option (Outcome (string * string)) :=
  match snd (Api.requestPresignedUrl (fetch w) (now_key w) (now_fields w)
               (name file) (type file) (size file)) with
  | inl message => ([], Some (inl message))
  | inr presignedData =>
      let (reported, settled) :=
        Api.uploadFileToS3 (opens w) (now_transfer w) file
          (presignedUrl presignedData) (events w) (network w) in
      (reported,
       match settled with
       | None => None
       | Some (inl message) => Some (inl message)
       | Some (inr key) =>
           match Api.processKmlFile (now_process w) (random36 w) key with
           | inl message => Some (inl message)
           | inr analysisId => Some (inr (key, analysisId))
           end
       end)
  end.

(** The operations one click on the Upload button produces. *)
Definition handleUpload (w : World) (s : FileUpload.State) : list FileUpload.Op :=
  match FileUpload.selectedFile s with
  | None => [FileUpload.StartUpload]
  | Some file =>
      let (reported, settled) := stages w file in
      FileUpload.StartUpload
        :: map FileUpload.TransferProgress reported
        ++ match settled with
           | Some r => [FileUpload.UploadSettled r]
           | None => []
           end
  end.

End Pipeline.

(* ===================================================================== *)
(** * Facts about the string primitives *)
(* ===================================================================== *)

Section StringFacts.

Lemma split_nonempty (sep : ascii) (s : string) : JS.split sep s <> [].
Proof.
  induction s as [|c s IH]; simpl; [discriminate|].
  destruct (Ascii.eqb c sep); [discriminate|].
  destruct (JS.split sep s); [contradiction|discriminate].
Qed.

Lemma split_without (sep : ascii) (s : string) :
  JS.occurs sep s = false -> JS.split sep s = [s].
Proof.
  induction s as [|c s IH]; simpl; [reflexivity|].
  intros H. apply orb_false_iff in H as [Hc Hs].
  rewrite Hc, (IH Hs). reflexivity.
Qed.

Lemma split_pieces (sep : ascii) (s : string) :
  Forall (fun w => JS.occurs sep w = false) (JS.split sep s).
Proof.
  induction s as [|c s IH]; simpl.
  - repeat constructor.
  - destruct (Ascii.eqb c sep) eqn:E.
    + constructor; [reflexivity|exact IH].
    + destruct (JS.split sep s) as [|w ws]; [repeat constructor; simpl; now rewrite E|].
      inversion IH; subst. constructor; [|assumption].
      simpl. rewrite E. assumption.
Qed.

(** Joining the pieces with the separator gives the string back. *)
Lemma join_split (sep : ascii) (s : string) :
  JS.join (String sep EmptyString) (JS.split sep s) = s.
Proof.
  induction s as [|c s IH]; simpl; [reflexivity|].
  destruct (Ascii.eqb c sep) eqn:E.
  - apply Ascii.eqb_eq in E. subst c.
    pose proof (split_nonempty sep s) as Hne.
    destruct (JS.split sep s) as [|w ws]; [contradiction|].
    simpl. f_equal. exact IH.
  - pose proof (split_nonempty sep s) as Hne.
    destruct (JS.split sep s) as [|w ws]; [contradiction|].
    simpl in *. destruct ws; simpl in *; now rewrite <- IH.
Qed.

Lemma pop_snoc (A : Type) (l : list A) (x : A) : JS.pop (l ++ [x])%list = Some x.
Proof.
  induction l as [|a l IH]; [reflexivity|].
  simpl. destruct (l ++ [x])%list eqn:E; [destruct l; discriminate|exact IH].
Qed.

Lemma pop_some (A : Type) (l : list A) :
  l <> [] -> exists init x, l = (init ++ [x])%list /\ JS.pop l = Some x.
Proof.
  intros Hne. destruct (exists_last Hne) as (init & x & ->).
  exists init, x. split; [reflexivity|apply pop_snoc].
Qed.

Lemma append_assoc (a b c : string) : (a ++ b) ++ c = a ++ b ++ c.
Proof. induction a as [|x a IH]; simpl; [reflexivity|now rewrite IH]. Qed.

Lemma join_snoc (sep : string) (l : list string) (x : string) :
  l <> [] -> JS.join sep (l ++ [x])%list = JS.join sep l ++ sep ++ x.
Proof.
  induction l as [|a l IH]; [contradiction|]. intros _.
  destruct l as [|b l].
  - reflexivity.
  - change (JS.join sep ((a :: b :: l) ++ [x]))
      with (a ++ sep ++ JS.join sep ((b :: l) ++ [x])).
    rewrite IH by discriminate.
    change (JS.join sep (a :: b :: l)) with (a ++ sep ++ JS.join sep (b :: l)).
    now rewrite !append_assoc.
Qed.

(** The last piece of a split is what follows the last separator. *)
Lemma pop_split (sep : ascii) (s : string) :
  exists seg, JS.pop (JS.split sep s) = Some seg
    /\ JS.occurs sep seg = false
    /\ (s = seg \/ exists pre, s = pre ++ String sep seg).
Proof.
  destruct (pop_some (split_nonempty sep s)) as (init & seg & Hl & Hpop).
  exists seg. split; [exact Hpop|]. split.
  - pose proof (split_pieces sep s) as HF. rewrite Hl in HF.
    apply Forall_app in HF as [_ HF]. now inversion HF.
  - pose proof (join_split sep s) as Hj. rewrite Hl in Hj.
    destruct init as [|a init]; [left; now rewrite <- Hj|].
    right. exists (JS.join (String sep EmptyString) (a :: init)).
    rewrite join_snoc in Hj by discriminate. now rewrite <- Hj.
Qed.

(** The first piece of a split is what precedes the first separator. *)
Lemma first_split (sep : ascii) (s : string) :
  exists k, JS.first (JS.split sep s) = Some k
    /\ JS.occurs sep k = false
    /\ (s = k \/ exists rest, s = k ++ String sep rest).
Proof.
  pose proof (split_nonempty sep s) as Hne.
  pose proof (split_pieces sep s) as HF.
  pose proof (join_split sep s) as Hj.
  destruct (JS.split sep s) as [|k ws]; [contradiction|].
  exists k. split; [reflexivity|]. split; [now inversion HF|].
  destruct ws as [|w ws]; [left; now rewrite <- Hj|].
  right. exists (JS.join (String sep EmptyString) (w :: ws)).
  now rewrite <- Hj.
Qed.

Lemma startsWith_spec (s p : string) :
  JS.startsWith s p = true <-> exists r, s = p ++ r.
Proof.
  revert s. induction p as [|a p IH]; intros s; simpl.
  - split; [intros _; now exists s|intros _; now destruct s].
  - destruct s as [|b s]; simpl.
    + split; [discriminate|intros [r H]; discriminate].
    + rewrite andb_true_iff, Ascii.eqb_eq, IH. split.
      * intros [-> [r ->]]. now exists r.
      * intros [r H]. injection H as -> ->. split; [reflexivity|now exists r].
Qed.

Lemma includes_spec (s sub : string) :
  JS.includes s sub = true <-> exists a b, s = a ++ sub ++ b.
Proof.
  induction s as [|c s IH]; cbn [JS.includes].
  - rewrite orb_false_r, startsWith_spec. split.
    + intros [r H]. now exists EmptyString, r.
    + intros (a & b & H). destruct a; [now exists b|discriminate].
  - rewrite orb_true_iff, (startsWith_spec (String c s)), IH. split.
    + intros [[r H]|(a & b & ->)].
      * now exists EmptyString, r.
      * now exists (String c a), b.
    + intros (a & b & H). destruct a as [|x a].
      * left. now exists b.
      * right. injection H as -> ->. now exists a, b.
Qed.

Lemma endsWith_spec (s suf : string) :
  JS.endsWith s suf = true <-> exists p, s = p ++ suf.
Proof.
  induction s as [|c s IH]; cbn [JS.endsWith].
  - rewrite orb_false_r, String.eqb_eq. split.
    + intros <-. now exists EmptyString.
    + intros [p H]. destruct p; [exact H|discriminate].
  - rewrite orb_true_iff, String.eqb_eq, IH. split.
    + intros [<-|[p ->]]; [now exists EmptyString|now exists (String c p)].
    + intros [p H]. destruct p as [|x p]; [now left|].
      right. injection H as -> ->. now exists p.
Qed.

Lemma occurs_app (c : ascii) (a b : string) :
  JS.occurs c (a ++ b) = JS.occurs c a || JS.occurs c b.
Proof.
  induction a as [|x a IH]; simpl; [reflexivity|].
  now rewrite IH, orb_assoc.
Qed.

Lemma occurs_middle (c : ascii) (a b : string) :
  JS.occurs c (a ++ String c b) = true.
Proof.
  rewrite occurs_app. cbn [JS.occurs]. rewrite Ascii.eqb_refl.
  apply orb_true_r.
Qed.

Lemma occurs_lower_dot (s : string) :
  JS.occurs "." (JS.toLowerCase s) = JS.occurs "." s.
Proof.
  induction s as [|c s IH]; simpl; [reflexivity|]. rewrite IH. f_equal.
  unfold JS.lower_ascii.
  destruct (((65 <=? N_of_ascii c) && (N_of_ascii c <=? 90))%N) eqn:E; [|reflexivity].
  apply andb_true_iff in E as [E1 E2].
  apply N.leb_le in E1, E2.
  destruct (Ascii.eqb c ".") eqn:Ec.
  - apply Ascii.eqb_eq in Ec. subst c. simpl in E1. lia.
  - apply Ascii.eqb_neq. intros H.
    apply (f_equal N_of_ascii) in H. rewrite N_ascii_embedding in H by lia.
    simpl in H. lia.
Qed.

End StringFacts.

(* ===================================================================== *)
(** * The validator *)
(* ===================================================================== *)

Section Validator.

Import FileUpload.

Variable p : Props.

Lemma validateFile_too_large (file : File) :
  maxFileSize p * 1024 * 1024 < size file ->
  validateFile p file =
  Some ("File size must be less than " ++ JS.show (maxFileSize p) ++ "MB").
Proof.
  intros H. unfold validateFile.
  apply Z.ltb_lt in H. now rewrite H.
Qed.

Lemma validateFile_wrong_type (file : File) :
  size file <= maxFileSize p * 1024 * 1024 ->
  JS.array_includes (acceptedTypes p) (fileExtension (name file)) = false ->
  validateFile p file =
  Some ("Only " ++ JS.join ", " (acceptedTypes p) ++ " files are allowed").
Proof.
  intros Hs Ht. unfold validateFile.
  apply Z.ltb_ge in Hs. now rewrite Hs, Ht.
Qed.

Lemma validateFile_accepts (file : File) :
  size file <= maxFileSize p * 1024 * 1024 ->
  JS.array_includes (acceptedTypes p) (fileExtension (name file)) = true ->
  validateFile p file = None.
Proof.
  intros Hs Ht. unfold validateFile.
  apply Z.ltb_ge in Hs. now rewrite Hs, Ht.
Qed.

(** A validation error is never the empty string, so the test
    [if (validationError)] of [handleFileSelect] tells [null] from an
    error. *)
Lemma validateFile_truthy (file : File) :
  JS.truthy (validateFile p file) = FileUpload.isSome (validateFile p file).
Proof.
  unfold validateFile.
  destruct (maxFileSize p * 1024 * 1024 <? size file); [reflexivity|].
  destruct (negb _); reflexivity.
Qed.

End Validator.

(** For a name with a dot, the extension compared with [acceptedTypes] is
    the text from the last dot on, in lower case. *)
Lemma fileExtension_dotted (base ext : string) :
  JS.occurs "." ext = false ->
  FileUpload.fileExtension (base ++ String "." ext) = String "." (JS.toLowerCase ext).
Proof.
  intros Hext. unfold FileUpload.fileExtension.
  destruct (pop_split "." (base ++ String "." ext)) as (seg & Hpop & Hocc & Hs).
  rewrite Hpop. simpl. f_equal. f_equal.
  destruct Hs as [Hs|[pre Hs]].
  - exfalso. rewrite <- Hs, occurs_middle in Hocc. discriminate.
  - clear Hpop. revert pre Hs.
    induction base as [|c base IH]; intros pre Hs; simpl in Hs.
    + destruct pre as [|x pre]; simpl in Hs.
      * now injection Hs as ->.
      * injection Hs as _ Hs. exfalso.
        rewrite Hs, occurs_middle in Hext. discriminate.
    + destruct pre as [|x pre]; simpl in Hs.
      * injection Hs as _ Hs. exfalso.
        rewrite <- Hs, occurs_middle in Hocc. discriminate.
      * injection Hs as _ Hs. eauto.
Qed.

(** For a name without a dot, it is a dot followed by the whole name in
    lower case. *)
Lemma fileExtension_dotless (fileName : string) :
  JS.occurs "." fileName = false ->
  FileUpload.fileExtension fileName = String "." (JS.toLowerCase fileName).
Proof.
  intros H. unfold FileUpload.fileExtension.
  now rewrite (split_without _ _ H).
Qed.

(** C2.  With the default props, [validateFile] accepts a file whose name
    is just [kml]: the name has no dot, so the extension the code compares
    is a dot followed by the whole name.  The name ends with none of the
    accepted extensions, and the type check of [requestPresignedUrl], which
    uses [endsWith], rejects the same file. *)
Theorem validateFile_accepts_name_without_extension :
  let file := {| name := "kml"; type := ""; size := 2048 |} in
  FileUpload.validateFile FileUpload.defaultProps file = None
  /\ JS.occurs "." (name file) = false
  /\ Forall (fun ext => JS.endsWith (JS.toLowerCase (name file)) ext = false)
       (FileUpload.acceptedTypes FileUpload.defaultProps)
  /\ Api.typeRejected (name file) (type file) = true.
Proof.
  cbv zeta. repeat split; try reflexivity.
  repeat constructor.
Qed.

(* ===================================================================== *)
(** * The state machine of the component *)
(* ===================================================================== *)

Module Orchestrator.

Import FileUpload.

(** A transition that never moves backward along
    Idle -> Uploading -> {Success | Error}, or that is a reset by
    [clearFile] to Idle. *)
Definition forward_or_reset (tr : Status * Op * Status) : Prop :=
  let '(a, o, b) := tr in
  rank a <= rank b \/ (o = ClearFile /\ b = Idle).

(** The same, where a file that passes validation may also bring the
    component back to Idle. *)
Definition forward_or_cleared (p : Props) (tr : Status * Op * Status) : Prop :=
  let '(a, o, b) := tr in
  rank a <= rank b
  \/ (b = Idle /\ (o = ClearFile
                  \/ exists file, o = SelectFile file /\ validateFile p file = None)).

Definition goodFile : File :=
  {| name := "parcel.kml"; type := "application/vnd.google-earth.kml";
     size := 2 * 1024 * 1024 |}.

Definition badFile : File :=
  {| name := "map.png"; type := "image/png"; size := 1024 |}.

Lemma handleFileSelect_status (p : Props) (file : File) (s : State) :
  status (uploadStatus (handleFileSelect p file s)) =
  match validateFile p file with
  | None => Idle
  | Some _ => Error
  end.
Proof.
  unfold handleFileSelect. rewrite validateFile_truthy.
  destruct (validateFile p file); reflexivity.
Qed.

(** A file that passes validation becomes the selected file; one that does
    not leaves the selection as it was. *)
Lemma handleFileSelect_selected (p : Props) (file : File) (s : State) :
  selectedFile (handleFileSelect p file s) =
  match validateFile p file with
  | None => Some file
  | Some _ => selectedFile s
  end.
Proof.
  unfold handleFileSelect. rewrite validateFile_truthy.
  destruct (validateFile p file); reflexivity.
Qed.

(** One offered operation: where the status can go. *)
Lemma step_forward_or_cleared (p : Props) (s : State) (o : Op) :
  offered s o = true ->
  forward_or_cleared p
    (status (uploadStatus s), o, status (uploadStatus (step p s o))).
Proof.
  intros Hoff. destruct o as [file| |pr|r|]; simpl.
  - rewrite handleFileSelect_status.
    destruct (validateFile p file) eqn:E.
    + left. destruct (status (uploadStatus s)); simpl; lia.
    + right. split; [reflexivity|]. right. now exists file.
  - simpl in Hoff. apply andb_true_iff in Hoff as [Hf Hst].
    unfold handleUpload_start.
    destruct (selectedFile s); [|discriminate].
    destruct (status (uploadStatus s)); try discriminate.
    left. simpl. lia.
  - left. lia.
  - left. destruct r as [m|[k a]]; destruct (status (uploadStatus s)); simpl; lia.
  - right. split; [reflexivity|]. now left.
Qed.

(** The Upload button is what keeps [handleUpload] to the Idle state: the
    function itself only looks at the selected file. *)
Lemma handleUpload_start_unguarded (s : State) (file : File) :
  selectedFile s = Some file ->
  status (uploadStatus (handleUpload_start s)) = Uploading.
Proof. intros H. unfold handleUpload_start. now rewrite H. Qed.

(** C1, as stated.  Dropping a file that fails validation and then one that
    passes takes the component Idle -> Error -> Idle; the second transition
    goes backward and is not a [clearFile]. *)
Lemma reselect_leaves_Error_without_reset :
  ~ (forall (p : Props) (ops : list Op),
        all_offered p initial ops = true ->
        Forall forward_or_reset (transitions p initial ops)).
Proof.
  intros H.
  specialize (H defaultProps [SelectFile badFile; SelectFile goodFile] eq_refl).
  inversion H as [|? ? _ H2]; subst.
  inversion H2 as [|? ? H3 _]; subst.
  vm_compute in H3. destruct H3 as [H3|[H3 _]]; [now apply H3|discriminate].
Qed.

(** C1, amended.  Along every sequence of operations the component offers,
    the status never moves backward on Idle -> Uploading -> {Success | Error}
    except to Idle, and then the operation is [clearFile] or the selection
    of a file that passes validation. *)
Theorem status_forward_or_cleared (p : Props) (s : State) (ops : list Op) :
  all_offered p s ops = true ->
  Forall (forward_or_cleared p) (transitions p s ops).
Proof.
  revert s. induction ops as [|o ops IH]; intros s Hoff; simpl.
  - constructor.
  - simpl in Hoff. apply andb_true_iff in Hoff as [Ho Hrest].
    constructor; [now apply step_forward_or_cleared|now apply IH].
Qed.

(** A full run: select, upload with two progress reports, success, an
    invalid drop, a valid drop, a second upload that fails, clear. *)
Definition sampleRun : list Op :=
  [SelectFile goodFile; StartUpload;
   TransferProgress {| loaded := Num.of_Z 1; total := Num.of_Z 2;
                       percentage := Num.of_Z 50 |};
   UploadSettled (inr ("parcel.kml", "analysis-1700000000000-4fzyo82mv"));
   SelectFile badFile; SelectFile goodFile; StartUpload;
   UploadSettled (inl "Upload timed out"); ClearFile].

Lemma status_forward_or_cleared_witness :
  all_offered defaultProps initial sampleRun = true
  /\ Forall (forward_or_cleared defaultProps)
       (transitions defaultProps initial sampleRun).
Proof.
  split; [reflexivity|].
  apply (status_forward_or_cleared defaultProps initial sampleRun).
  reflexivity.
Defined.

Example sampleRun_statuses :
  map (fun tr => snd tr) (transitions defaultProps initial sampleRun) =
  [Idle; Uploading; Uploading; Success; Error; Idle; Uploading; Error; Idle].
Proof. reflexivity. Qed.

(** Consequences for the transitions the invariant singles out. *)
Corollary no_return_to_Uploading (p : Props) (s : State) (o : Op) :
  offered s o = true ->
  status (uploadStatus (step p s o)) = Uploading ->
  status (uploadStatus s) = Idle \/ status (uploadStatus s) = Uploading.
Proof.
  intros Hoff Hst. pose proof (step_forward_or_cleared p s o Hoff) as H.
  simpl in H. rewrite Hst in H.
  destruct H as [H|[H _]]; [|discriminate].
  destruct (status (uploadStatus s)); simpl in H; auto; lia.
Qed.

Corollary Uploading_to_Idle_only_cleared (p : Props) (s : State) (o : Op) :
  offered s o = true ->
  status (uploadStatus s) = Uploading ->
  status (uploadStatus (step p s o)) = Idle ->
  o = ClearFile \/ exists file, o = SelectFile file /\ validateFile p file = None.
Proof.
  intros Hoff Ha Hb. pose proof (step_forward_or_cleared p s o Hoff) as H.
  simpl in H. rewrite Ha, Hb in H.
  destruct H as [H|[_ H]]; [simpl in H; lia|exact H].
Qed.

End Orchestrator.

(* ===================================================================== *)
(** * The transfer *)
(* ===================================================================== *)

Module Transfer.

(** [seg] is the part of [s] after its last [c] (all of [s] when [c] does
    not occur). *)
Definition after_last (c : ascii) (s seg : string) : Prop :=
  JS.occurs c seg = false /\ (s = seg \/ exists pre, s = pre ++ String c seg).

(** [k] is the part of [s] before its first [c] (all of [s] when [c] does
    not occur). *)
Definition before_first (c : ascii) (s k : string) : Prop :=
  JS.occurs c k = false /\ (s = k \/ exists rest, s = k ++ String c rest).

Lemma after_last_unique (c : ascii) (s seg seg' : string) :
  after_last c s seg -> after_last c s seg' -> seg = seg'.
Proof.
  intros [Ho [->|[pre ->]]] [Ho' [E|[pre' E]]].
  - now symmetry.
  - rewrite E, occurs_middle in Ho. discriminate.
  - rewrite <- E, occurs_middle in Ho'. discriminate.
  - revert pre' E. induction pre as [|x pre IH]; intros [|y pre'] E; simpl in E.
    + now injection E.
    + injection E as _ E. rewrite E, occurs_middle in Ho. discriminate.
    + injection E as _ E. rewrite <- E, occurs_middle in Ho'. discriminate.
    + injection E as _ E. eauto.
Qed.

Lemma before_first_unique (c : ascii) (s k k' : string) :
  before_first c s k -> before_first c s k' -> k = k'.
Proof.
  intros [Ho [->|[r ->]]] [Ho' [E|[r' E]]].
  - now symmetry.
  - rewrite E, occurs_middle in Ho. discriminate.
  - rewrite <- E, occurs_middle in Ho'. discriminate.
  - revert k' Ho' E. induction k as [|x k IH]; intros [|y k'] Ho' E; simpl in E.
    + reflexivity.
    + injection E as E _. subst y. simpl in Ho'.
      rewrite Ascii.eqb_refl in Ho'. discriminate.
    + injection E as E _. subst x. simpl in Ho.
      rewrite Ascii.eqb_refl in Ho. discriminate.
    + injection E as -> E. f_equal.
      simpl in Ho, Ho'. apply orb_false_iff in Ho as [_ Ho].
      apply orb_false_iff in Ho' as [_ Ho']. eauto.
Qed.

(** The key read off a presigned URL. *)
Lemma extractFileKey_spec (now : Z) (fileName presignedUrl : string) :
  exists segment key,
    after_last "/" presignedUrl segment
    /\ before_first "?" segment key
    /\ Api.extractFileKey now fileName presignedUrl =
       if String.eqb key "" then "input_kml_files/" ++ JS.show now ++ "-" ++ fileName
       else key.
Proof.
  unfold Api.extractFileKey.
  destruct (pop_split "/" presignedUrl) as (seg & Hpop & Hocc & Hs).
  destruct (first_split "?" seg) as (k & Hfirst & Hk & Hseg).
  exists seg, k. rewrite Hpop, Hfirst.
  repeat split; try assumption.
  destruct k; reflexivity.
Qed.

(** The transfer always settles: the timeout is set, and a URL that is
    refused settles it at once. *)
Lemma uploadFileToS3_settles (opens : Xhr.Opening) (now : Z) (file : File)
    (presignedUrl : string) (events : list Xhr.ProgressEvent) (net : Xhr.Network) :
  exists r, snd (Api.uploadFileToS3 opens now file presignedUrl events net) = Some r.
Proof.
  unfold Api.uploadFileToS3. destruct (opens presignedUrl); [cbn; eauto|].
  destruct net; simpl; eauto.
Qed.

(** A browser that opens every URL but the one with an unclosed bracket in
    the place of the host. *)
Definition bracketOpening : Xhr.Opening :=
  fun url =>
    if String.eqb url "http://["
    then Some "Failed to execute 'open' on 'XMLHttpRequest': Invalid URL"
    else None.

(** C3, as stated.  With a URL that [xhr.open] refuses nothing is sent, so
    no answer arrives within 30 seconds or ever; yet the error is the
    exception of [open], not the timeout error. *)
Lemma refused_url_is_not_a_timeout :
  let r := snd (Api.uploadFileToS3 bracketOpening 17
                  {| name := "parcel.kml"; type := ""; size := 2048 |}
                  "http://[" [] Xhr.silent) in
  r = Some (inl "Failed to execute 'open' on 'XMLHttpRequest': Invalid URL")
  /\ r <> Some (inl "Upload timed out").
Proof. cbv zeta. split; [reflexivity|discriminate]. Qed.

(** C3, amended.  The outcome of [uploadFileToS3].  When [xhr.open] refuses
    the URL, the promise rejects at once with the message of that exception
    and no progress is reported.  Once the request is opened, the outcome
    goes by what the network does: no answer within 30000 ms gives the
    timeout error; a transport failure gives the network error; an answer
    with a status outside 200-299 gives the error that carries the status.
    The promise resolves exactly when the request is opened and an answer
    with a status in 200-299 arrives in time. *)
Theorem uploadFileToS3_outcome (opens : Xhr.Opening) (now : Z) (file : File)
    (presignedUrl : string) (events : list Xhr.ProgressEvent) (net : Xhr.Network) :
  let run := Api.uploadFileToS3 opens now file presignedUrl events net in
  let r := snd run in
  (forall message, opens presignedUrl = Some message ->
     run = ([], Some (inl message)))
  /\ (opens presignedUrl = None ->
      (net = Xhr.silent
       \/ (exists t st, net = Xhr.responds t st /\ 30000 <= t)
       \/ (exists t, net = Xhr.transport_fails t /\ 30000 <= t) ->
       r = Some (inl "Upload timed out"))
      /\ (forall t, net = Xhr.transport_fails t -> t < 30000 ->
          r = Some (inl "Upload failed due to network error"))
      /\ (forall t st, net = Xhr.responds t st -> t < 30000 ->
          ~ (200 <= st <= 299) ->
          r = Some (inl ("Upload failed with status: " ++ JS.show st))))
  /\ ((exists key, r = Some (inr key))
      <-> opens presignedUrl = None
          /\ exists t st, net = Xhr.responds t st /\ t < 30000 /\ 200 <= st <= 299).
Proof.
  cbv zeta. unfold Api.uploadFileToS3.
  destruct (opens presignedUrl) as [refusal|] eqn:Eo.
  - split; [intros message H; now injection H as <-|].
    split; [discriminate|].
    split; [intros [key H]; discriminate|intros [H _]; discriminate].
  - split; [discriminate|].
    unfold Xhr.final, Xhr.expired, Api.uploadTimeout.
    cbn [snd]. change (0 <? 30000) with true. cbn [andb].
    split; [intros _; split; [|split]|split].
    + intros [->|[(t & st & -> & Ht)|(t & -> & Ht)]]; cbn.
      * reflexivity.
      * apply Z.leb_le in Ht. now rewrite Ht.
      * apply Z.leb_le in Ht. now rewrite Ht.
    + intros t -> Ht. apply Z.leb_gt in Ht. cbn. now rewrite Ht.
    + intros t st -> Ht Hst. apply Z.leb_gt in Ht. cbn. rewrite Ht. cbn.
      destruct ((200 <=? st) && (st <? 300)) eqn:E; [|reflexivity].
      apply andb_true_iff in E as [E1 E2]. apply Z.leb_le in E1.
      apply Z.ltb_lt in E2. exfalso. apply Hst. lia.
    + intros [key H]. split; [reflexivity|].
      destruct net as [t st|t|]; cbn in H.
      * destruct (30000 <=? t) eqn:Et; cbn in H; [discriminate|].
        destruct ((200 <=? st) && (st <? 300)) eqn:E; [|discriminate].
        apply andb_true_iff in E as [E1 E2]. apply Z.leb_le in E1.
        apply Z.ltb_lt in E2. apply Z.leb_gt in Et.
        exists t, st. repeat split; lia.
      * destruct (30000 <=? t); discriminate.
      * discriminate.
    + intros (_ & t & st & -> & Ht & Hst). cbn.
      apply Z.leb_gt in Ht. rewrite Ht. cbn.
      assert (E : (200 <=? st) && (st <? 300) = true)
        by (apply andb_true_iff; split; [apply Z.leb_le|apply Z.ltb_lt]; lia).
      rewrite E. eauto.
Qed.

Example uploadFileToS3_runs :
  let file := Orchestrator.goodFile in
  let url := "https://store/bucket/input_kml_files/parcel.kml?sig=abc" in
  let upload := Api.uploadFileToS3 bracketOpening 17 file in
  snd (upload url [] (Xhr.responds 1200 200)) = Some (inr "parcel.kml")
  /\ snd (upload url [] (Xhr.responds 1200 403))
     = Some (inl "Upload failed with status: 403")
  /\ snd (upload url [] (Xhr.responds 31000 200)) = Some (inl "Upload timed out")
  /\ snd (upload url [] (Xhr.transport_fails 10))
     = Some (inl "Upload failed due to network error")
  /\ snd (upload url [] Xhr.silent) = Some (inl "Upload timed out")
  /\ snd (upload "https://store/bucket/?sig=abc" [] (Xhr.responds 5 204))
     = Some (inr "input_kml_files/17-parcel.kml")
  /\ snd (upload "http://[" [] (Xhr.responds 5 200))
     = Some (inl "Failed to execute 'open' on 'XMLHttpRequest': Invalid URL").
Proof. repeat split; reflexivity. Qed.

(** What the code computes on a successful transfer: the key is the part of
    the URL after its last slash, cut at the first question mark; when that
    is empty, it is [input_kml_files/], the clock reading, a dash and the
    file name.  The upload relay computes the key it returns in the same
    way. *)
Lemma fileKey_of_successful_transfer (opens : Xhr.Opening) (now : Z) (file : File)
    (presignedUrl : string) (events : list Xhr.ProgressEvent) (t st : Z) :
  opens presignedUrl = None ->
  t < 30000 -> 200 <= st <= 299 ->
  exists segment key,
    after_last "/" presignedUrl segment
    /\ before_first "?" segment key
    /\ let fileKey :=
         if String.eqb key ""
         then "input_kml_files/" ++ JS.show now ++ "-" ++ name file
         else key in
       snd (Api.uploadFileToS3 opens now file presignedUrl events (Xhr.responds t st))
       = Some (inr fileKey)
       /\ forall store : string -> Routes.Store,
            presignedUrl <> "" ->
            store presignedUrl = Routes.store_response st ->
            Routes.reply_body
              (snd (Routes.uploadProxy_POST (inr (Some file, Some presignedUrl)) store now))
            = Routes.upload_body true fileKey "File uploaded successfully".
Proof.
  intros Hopen Ht Hst.
  destruct (extractFileKey_spec now (name file) presignedUrl)
    as (segment & key & Hseg & Hkey & Heq).
  exists segment, key. split; [exact Hseg|]. split; [exact Hkey|].
  cbv zeta. rewrite <- Heq. split.
  - unfold Api.uploadFileToS3, Xhr.final, Xhr.expired, Api.uploadTimeout.
    rewrite Hopen. cbn.
    apply Z.leb_gt in Ht. rewrite Ht. cbn.
    assert (E : (200 <=? st) && (st <? 300) = true)
      by (apply andb_true_iff; split; [apply Z.leb_le|apply Z.ltb_lt]; lia).
    now rewrite E.
  - intros store Hurl Hstore.
    destruct presignedUrl as [|c u]; [contradiction|].
    cbn. rewrite Hstore.
    assert (E : Api.ok st = true)
      by (apply andb_true_iff; split; apply Z.leb_le; lia).
    now rewrite E.
Qed.

(** The claim's words, to compare with: the query string is removed first,
    and the key is the last segment of the path that remains; when that is
    empty, the key is synthesised. *)
Definition pathSegmentKey (now : Z) (fileName transferUrl : string) : string :=
  let path :=
    match JS.first (JS.split "?" transferUrl) with
    | Some p => p
    | None => ""
    end in
  JS.or_else (JS.pop (JS.split "/" path))
    ("input_kml_files/" ++ JS.show now ++ "-" ++ fileName).

(** Where the query string holds no slash, the code computes what the
    claim says. *)
Lemma extractFileKey_is_pathSegmentKey (now : Z) (fileName transferUrl : string) :
  (forall path query,
      transferUrl = path ++ String "?" query ->
      JS.occurs "?" path = false -> JS.occurs "/" query = false) ->
  Api.extractFileKey now fileName transferUrl
  = pathSegmentKey now fileName transferUrl.
Proof.
  intros Hq. unfold pathSegmentKey.
  destruct (first_split "?" transferUrl) as (path & Hfirst & Hp & Hurl).
  rewrite Hfirst.
  destruct (pop_split "/" path) as (seg & Hpop & Hseg & Hpath). rewrite Hpop.
  destruct (extractFileKey_spec now fileName transferUrl)
    as (seg' & key & Hs' & Hk & ->).
  assert (Hsegq : JS.occurs "?" seg = false).
  { destruct Hpath as [<-|[pre Hpath]]; [exact Hp|].
    rewrite Hpath, occurs_app in Hp. apply orb_false_iff in Hp as [_ Hp].
    cbn in Hp. exact Hp. }
  assert (Hkey : key = seg).
  { destruct Hurl as [Hurl|[query Hurl]].
    - assert (seg' = seg).
      { eapply after_last_unique; [exact Hs'|].
        split; [exact Hseg|]. rewrite Hurl. exact Hpath. }
      subst seg'. eapply before_first_unique; [exact Hk|].
      split; [exact Hsegq|now left].
    - pose proof (Hq path query Hurl Hp) as Hslash.
      assert (seg' = seg ++ String "?" query).
      { eapply after_last_unique; [exact Hs'|]. split.
        - rewrite occurs_app, Hseg. cbn. exact Hslash.
        - rewrite Hurl. destruct Hpath as [->|[pre ->]]; [now left|].
          right. exists pre. now rewrite append_assoc. }
      subst seg'. eapply before_first_unique; [exact Hk|].
      split; [exact Hsegq|]. right. now exists query. }
  subst key. destruct seg; reflexivity.
Qed.

(** The last slash counts wherever it stands, also inside the query
    string. *)
Example slash_in_query :
  Api.extractFileKey 17 "parcel.kml" "https://store/bucket/parcel.kml?scope=a/b" = "b".
Proof. reflexivity. Qed.

(** A presigned URL whose credential scope is written with plain
    slashes. *)
Definition scopedUrl : string :=
  "https://kml-bucket.s3.ap-south-1.amazonaws.com/input_kml_files/parcel.kml?X-Amz-Credential=AKIAEXAMPLE/20250101/ap-south-1/s3/aws4_request&X-Amz-Signature=abc".

(** C5.  The code looks for the last slash in the whole URL and only then
    cuts at the question mark.  With a slash in the query string the key of
    a successful transfer is a piece of the query string, where the path
    segment preceding the query string is [parcel.kml]; the upload relay
    returns the same piece. *)
Theorem fileKey_cut_from_query_string :
  snd (Api.uploadFileToS3 bracketOpening 17 Orchestrator.goodFile scopedUrl []
         (Xhr.responds 1200 200))
  = Some (inr "aws4_request&X-Amz-Signature=abc")
  /\ pathSegmentKey 17 (name Orchestrator.goodFile) scopedUrl = "parcel.kml"
  /\ Routes.reply_body
       (snd (Routes.uploadProxy_POST (inr (Some Orchestrator.goodFile, Some scopedUrl))
               (fun _ => Routes.store_response 200) 17))
     = Routes.upload_body true "aws4_request&X-Amz-Signature=abc"
         "File uploaded successfully".
Proof. repeat split; reflexivity. Qed.

Example relay_key :
  Routes.reply_body
    (snd (Routes.uploadProxy_POST
            (inr (Some Orchestrator.goodFile,
                  Some "https://store/bucket/input_kml_files/parcel.kml?sig=abc"))
            (fun _ => Routes.store_response 200) 17))
  = Routes.upload_body true "parcel.kml" "File uploaded successfully".
Proof. reflexivity. Qed.

End Transfer.

(* ===================================================================== *)
(** * The credential request *)
(* ===================================================================== *)

Module Credentials.

Import Api.

(** The request the client sends for [fileName]. *)
Definition requestFor (fileName : string) : Request :=
  {| url := "/api/presigned-url"; method := "POST";
     contentType := "application/json";
     body_fileName := "input_kml_files/" ++ fileName |}.

Example sizeLimit_bytes : sizeLimit = 52428800.
Proof. reflexivity. Qed.

(** The two guards come first, in this order, and return before [fetch]. *)
Lemma requestPresignedUrl_cases (fetch : Request -> FetchResult)
    (now_key now_fields : Z) (fileName fileType : string) (fileSize : Z) :
  requestPresignedUrl fetch now_key now_fields fileName fileType fileSize =
  if sizeLimit <? fileSize then ([], inl tooLargeMessage)
  else if typeRejected fileName fileType then ([], inl wrongTypeMessage)
  else ([requestFor fileName],
        rethrow (readResponse now_key now_fields fileName fileType
                   (fetch (requestFor fileName)))).
Proof. reflexivity. Qed.

Lemma typeRejected_true (fileName fileType : string) :
  typeRejected fileName fileType = true <->
  JS.includes fileType kmlType = false
  /\ JS.includes fileType kmzType = false
  /\ JS.endsWith (JS.toLowerCase fileName) ".kml" = false
  /\ JS.endsWith (JS.toLowerCase fileName) ".kmz" = false.
Proof.
  unfold typeRejected.
  rewrite !andb_true_iff, !negb_true_iff. tauto.
Qed.

Lemma typeRejected_false (fileName fileType : string) :
  typeRejected fileName fileType = false <->
  JS.includes fileType kmlType = true
  \/ JS.includes fileType kmzType = true
  \/ JS.endsWith (JS.toLowerCase fileName) ".kml" = true
  \/ JS.endsWith (JS.toLowerCase fileName) ".kmz" = true.
Proof.
  unfold typeRejected.
  destruct (JS.includes fileType kmlType), (JS.includes fileType kmzType),
    (JS.endsWith (JS.toLowerCase fileName) ".kml"),
    (JS.endsWith (JS.toLowerCase fileName) ".kmz"); cbn; intuition discriminate.
Qed.

(** The messages of the [catch] block differ from the one of the type
    guard. *)
Lemma rethrow_not_wrongType (A : Type) (r : Outcome A) :
  rethrow r <> inl wrongTypeMessage.
Proof.
  destruct r as [message|v]; cbn; [|discriminate].
  destruct (JS.includes message "CORS" || JS.includes message "Access-Control-Allow-Origin");
    discriminate.
Qed.

(** C6, as stated.  A 60 MiB file named [map.png] of type [image/png]
    fails both checks; the size is checked first, so the error is the one
    about the size and not the one about the type. *)
Lemma oversized_wrong_type_gets_size_error :
  ~ (forall (fetch : Request -> FetchResult) (now_key now_fields : Z)
            (fileName fileType : string) (fileSize : Z),
        (50 * 1024 * 1024 < fileSize ->
         requestPresignedUrl fetch now_key now_fields fileName fileType fileSize
         = ([], inl tooLargeMessage))
        /\ (JS.includes fileType kmlType = false ->
            JS.includes fileType kmzType = false ->
            JS.endsWith (JS.toLowerCase fileName) ".kml" = false ->
            JS.endsWith (JS.toLowerCase fileName) ".kmz" = false ->
            requestPresignedUrl fetch now_key now_fields fileName fileType fileSize
            = ([], inl wrongTypeMessage))).
Proof.
  intros H.
  destruct (H (fun _ => fetch_rejects "offline") 0 0 "map.png" "image/png"
              (60 * 1024 * 1024)) as [_ H2].
  specialize (H2 eq_refl eq_refl eq_refl eq_refl).
  vm_compute in H2. discriminate.
Qed.

(** C6, amended.  Whatever the network would answer, [requestPresignedUrl]
    issues no request and fails with the size error for every size above
    50 * 1024 * 1024 bytes, and with the type error for every input within
    that size whose MIME type contains neither media type and whose
    lower-cased name ends in neither extension. *)
Theorem requestPresignedUrl_revalidates (fetch : Request -> FetchResult)
    (now_key now_fields : Z) (fileName fileType : string) (fileSize : Z) :
  (50 * 1024 * 1024 < fileSize ->
   requestPresignedUrl fetch now_key now_fields fileName fileType fileSize
   = ([], inl "File size exceeds 50MB limit"))
  /\ (fileSize <= 50 * 1024 * 1024 ->
      JS.includes fileType "application/vnd.google-earth.kml" = false ->
      JS.includes fileType "application/vnd.google-earth.kmz" = false ->
      JS.endsWith (JS.toLowerCase fileName) ".kml" = false ->
      JS.endsWith (JS.toLowerCase fileName) ".kmz" = false ->
      requestPresignedUrl fetch now_key now_fields fileName fileType fileSize
      = ([], inl "Only KML and KMZ files are allowed")).
Proof.
  rewrite requestPresignedUrl_cases. split.
  - intros H. apply Z.ltb_lt in H. unfold sizeLimit. now rewrite H.
  - intros H H1 H2 H3 H4. apply Z.ltb_ge in H. unfold sizeLimit. rewrite H.
    assert (E : typeRejected fileName fileType = true)
      by (apply typeRejected_true; auto).
    now rewrite E.
Qed.

Example requestPresignedUrl_guards :
  requestPresignedUrl (fun _ => fetch_rejects "offline") 0 0 "big.kml" kmlType 52428801
  = ([], inl "File size exceeds 50MB limit")
  /\ requestPresignedUrl (fun _ => fetch_rejects "offline") 0 0 "map.png" "image/png" 1024
     = ([], inl "Only KML and KMZ files are allowed")
  /\ requestPresignedUrl (fun _ => fetch_rejects "offline") 0 0 "edge.kml" kmlType 52428800
     = ([requestFor "edge.kml"], inl "Failed to request presigned URL: offline").
Proof. repeat split; reflexivity. Qed.



Definition bareAnswer : ApiData :=
  {| d_presignedUrl := None; d_fileKey := Some "input_kml_files/parcel.kml";
     d_expiresIn := Some 3600; d_fields := None |}.


Example bare_answer_is_rejected :
  snd (requestPresignedUrl (fun _ => fetch_response 200 "OK" (json bareAnswer))
         17 18 "parcel.kml" kmlType 2048)
  = inl "Failed to request presigned URL: Invalid response from server: missing presignedUrl".
Proof. reflexivity. Qed.

(** An empty [presignedUrl] is falsy and rejected in the same way. *)
Lemma empty_presignedUrl_is_rejected (data : ApiData) :
  d_presignedUrl data = Some "" ->
  readResponse 0 0 "parcel.kml" kmlType (fetch_response 200 "OK" (json data))
  = inl missingUrlMessage.
Proof. intros H. cbn. now rewrite H. Qed.

(** C10.  The type error is raised only when all four tests fail: the MIME
    type contains neither media type and the lower-cased name ends in
    neither extension.  So an input that passes any one of the four tests
    never gets the type error, and within the size limit its request is
    issued: a name without the extension goes through on its MIME type, and
    an unknown MIME type goes through on the extension of the name. *)
Theorem type_check_is_disjunctive (fetch : Request -> FetchResult)
    (now_key now_fields : Z) (fileName fileType : string) (fileSize : Z) :
  let run := requestPresignedUrl fetch now_key now_fields fileName fileType fileSize in
  (snd run = inl wrongTypeMessage ->
   JS.includes fileType "application/vnd.google-earth.kml" = false
   /\ JS.includes fileType "application/vnd.google-earth.kmz" = false
   /\ JS.endsWith (JS.toLowerCase fileName) ".kml" = false
   /\ JS.endsWith (JS.toLowerCase fileName) ".kmz" = false)
  /\ (JS.includes fileType "application/vnd.google-earth.kml" = true
      \/ JS.includes fileType "application/vnd.google-earth.kmz" = true
      \/ JS.endsWith (JS.toLowerCase fileName) ".kml" = true
      \/ JS.endsWith (JS.toLowerCase fileName) ".kmz" = true ->
      snd run <> inl wrongTypeMessage
      /\ (fileSize <= 50 * 1024 * 1024 -> fst run = [requestFor fileName])).
Proof.
  cbv zeta. rewrite requestPresignedUrl_cases. split.
  - destruct (sizeLimit <? fileSize); [discriminate|].
    destruct (typeRejected fileName fileType) eqn:E.
    + intros _. now apply typeRejected_true.
    + cbn [snd]. intros H. now apply rethrow_not_wrongType in H.
  - intros H. apply typeRejected_false in H. rewrite H. split.
    + destruct (sizeLimit <? fileSize); [discriminate|].
      cbn [snd]. apply rethrow_not_wrongType.
    + intros Hs. apply Z.ltb_ge in Hs. unfold sizeLimit. now rewrite Hs.
Qed.

Example type_check_examples :
  typeRejected "parcel.txt" "application/vnd.google-earth.kml+xml" = false
  /\ typeRejected "PARCEL.KMZ" "application/octet-stream" = false
  /\ typeRejected "parcel.txt" "text/plain" = true
  /\ typeRejected "kml" "" = true.
Proof. repeat split; reflexivity. Qed.

End Credentials.

(* ===================================================================== *)
(** * The credential proxy *)
(* ===================================================================== *)

Module Proxy.

Import Routes.



Definition emptyAnswer : LambdaData :=
  {| uploadUrl := None; l_fileKey := None; l_expiresIn := None; l_fields := None |}.


Example fallback_reply :
  snd (presignedUrl_POST (inr (Some "input_kml_files/parcel.kml"))
         (fun _ => upstream_response 200 "OK" (json emptyAnswer))
         "2024-05-06T07:08:09.123Z" 1714979289123)
  = {| reply_status := 200;
       reply_body :=
         credentials_body
           {| presignedUrl :=
                "https://mock-s3-bucket.s3.amazonaws.com/input_kml_files/parcel.kml?X-Amz-Algorithm=AWS4-HMAC-SHA256&X-Amz-Credential=mock&X-Amz-Date=20240506T070809Z&X-Amz-Expires=3600&X-Amz-SignedHeaders=host&X-Amz-Signature=mock";
              pr_fileKey := "input_kml_files/parcel.kml";
              expiresIn := 3600;
              fields :=
                [("Content-Type", "application/vnd.google-earth.kml");
                 ("x-amz-meta-original-name", "parcel.kml");
                 ("x-amz-meta-upload-timestamp", "1714979289123")] |};
       reply_headers :=
         [("Access-Control-Allow-Origin", "*");
          ("Access-Control-Allow-Methods", "POST, OPTIONS");
          ("Access-Control-Allow-Headers", "Content-Type");
          ("content-type", "application/json")] |}.
Proof. reflexivity. Qed.

(** An upstream failure is passed on with its status, when that status can
    carry a body. *)
Example upstream_failure_passed_on :
  snd (presignedUrl_POST (inr (Some "input_kml_files/parcel.kml"))
         (fun _ => upstream_response 503 "Service Unavailable" (not_json "no body")) "" 0)
  = {| reply_status := 503;
       reply_body := error_body "Lambda function returned 503: Service Unavailable";
       reply_headers := [("content-type", "application/json")] |}
  /\ snd (presignedUrl_POST (inr (Some "input_kml_files/parcel.kml"))
            (fun _ => upstream_response 304 "Not Modified" (not_json "no body")) "" 0)
     = {| reply_status := 500;
          reply_body := error_body "Internal server error";
          reply_headers := [("content-type", "application/json")] |}.
Proof. split; reflexivity. Qed.

End Proxy.

(* ===================================================================== *)
(** * The notifier *)
(* ===================================================================== *)

Module Notify.

(** [processKmlFile] has no rejecting path. *)
Lemma processKmlFile_resolves (now : Z) (random36 fileKey : string) :
  exists analysisId, Api.processKmlFile now random36 fileKey = inr analysisId.
Proof. unfold Api.processKmlFile. eauto. Qed.

(** The identifier does not depend on the key. *)
Lemma processKmlFile_ignores_key (now : Z) (random36 k1 k2 : string) :
  Api.processKmlFile now random36 k1 = Api.processKmlFile now random36 k2.
Proof. reflexivity. Qed.

(** [substr(2, 9)] gives at most nine characters, and fewer when the text
    has fewer than eleven. *)
Lemma substr_length (start len : nat) (s : string) :
  String.length (JS.substr start len s) =
  Nat.min len (String.length s - start).
Proof.
  revert start len. induction s as [|c s IH]; intros start len.
  - destruct start, len; reflexivity.
  - destruct start as [|start].
    + destruct len as [|len]; [reflexivity|].
      cbn [JS.substr String.length]. rewrite IH.
      rewrite !Nat.sub_0_r. reflexivity.
    + cbn [JS.substr String.length]. rewrite IH. reflexivity.
Qed.

Lemma string_of_uint_digits (d : Decimal.uint) :
  Pattern.all Pattern.digit (NilEmpty.string_of_uint d) = true.
Proof. induction d; cbn; auto. Qed.

(** A clock reading is printed as a non-empty run of decimal digits. *)
Lemma show_digits (z : Z) :
  0 <= z ->
  Pattern.all Pattern.digit (JS.show z) = true /\ JS.show z <> "".
Proof.
  intros Hz. unfold JS.show. destruct z as [|q|q]; [| |lia].
  - split; [reflexivity|discriminate].
  - cbn. pose proof (DecimalPos.Unsigned.to_uint_nonnil q) as Hnn.
    unfold NilZero.string_of_uint.
    destruct (Pos.to_uint q) eqn:E; try contradiction;
      (split; [apply (string_of_uint_digits (_ u))|discriminate]).
Qed.

Lemma span_digits (ds tail : string) :
  Pattern.all Pattern.digit ds = true ->
  Pattern.span Pattern.digit (ds ++ String "-" tail) = (ds, String "-" tail).
Proof.
  induction ds as [|c ds IH]; intros H.
  - reflexivity.
  - cbn in H. apply andb_true_iff in H as [Hc Hds].
    cbn [append Pattern.span]. rewrite Hc, (IH Hds). reflexivity.
Qed.

(** With a clock that is not before 1970, the identifier matches the
    pattern exactly when [substr(2, 9)] yields nine characters of
    [[a-z0-9]]. *)
Lemma analysisId_matches_iff (now : Z) (random36 fileKey : string) :
  0 <= now ->
  forall analysisId,
    Api.processKmlFile now random36 fileKey = inr analysisId ->
    (Pattern.analysisId analysisId = true <->
     String.length (JS.substr 2 9 random36) = 9%nat
     /\ Pattern.all Pattern.base36 (JS.substr 2 9 random36) = true).
Proof.
  intros Hnow analysisId H. unfold Api.processKmlFile in H.
  injection H as <-.
  destruct (show_digits Hnow) as [Hd Hne].
  unfold Pattern.analysisId.
  change (Pattern.strip _ _)
    with (Some (JS.show now ++ String "-" (JS.substr 2 9 random36))).
  cbv beta iota.
  rewrite (@span_digits _ (JS.substr 2 9 random36) Hd).
  destruct (JS.show now) as [|c r]; [contradiction|].
  now rewrite andb_true_iff, Nat.eqb_eq.
Qed.

(** C8.  [Math.random()] can return 0.5, whose text in base 36 is [0.i];
    [substr(2, 9)] then yields the single character [i], and the identifier
    does not match [analysis-\d+-[a-z0-9]{9}].  A draw whose text has nine
    digits or more gives a matching identifier. *)
Theorem short_random_text_breaks_pattern :
  Api.processKmlFile 1700000000000 "0.i" "parcel.kml"
  = inr "analysis-1700000000000-i"
  /\ Pattern.analysisId "analysis-1700000000000-i" = false
  /\ Api.processKmlFile 1700000000000 "0" "parcel.kml"
     = inr "analysis-1700000000000-"
  /\ Pattern.analysisId "analysis-1700000000000-" = false
  /\ Api.processKmlFile 1700000000000 "0.4fzyo82mvyr" "parcel.kml"
     = inr "analysis-1700000000000-4fzyo82mv"
  /\ Pattern.analysisId "analysis-1700000000000-4fzyo82mv" = true.
Proof. repeat split; reflexivity. Qed.

End Notify.

(* ===================================================================== *)
(** * One upload from click to outcome *)
(* ===================================================================== *)

Module Run.

Import FileUpload.

(** The state after a sequence of operations. *)
Definition run (p : Props) (s : State) (ops : list Op) : State :=
  fold_left (step p) ops s.

Lemma run_app (p : Props) (s : State) (ops ops' : list Op) :
  run p s (ops ++ ops')%list = run p (run p s ops) ops'.
Proof. apply fold_left_app. Qed.

Lemma run_progress (p : Props) (s : State) (reported : list UploadProgress) :
  status (uploadStatus (run p s (map TransferProgress reported)))
  = status (uploadStatus s)
  /\ selectedFile (run p s (map TransferProgress reported)) = selectedFile s.
Proof.
  revert s. induction reported as [|pr reported IH]; intros s; [now split|].
  cbn [map run fold_left]. destruct (IH (step p s (TransferProgress pr))) as [H1 H2].
  unfold run in H1, H2. rewrite H1, H2. now split.
Qed.

(** Every run of the three stages settles: the transfer has a timeout
    and the other two stages always answer. *)
Lemma stages_settle (w : Pipeline.World) (file : File) :
  exists r, snd (Pipeline.stages w file) = Some r.
Proof.
  unfold Pipeline.stages.
  destruct (snd (Api.requestPresignedUrl _ _ _ _ _ _)) as [message|data];
    [cbn; eauto|].
  destruct (Api.uploadFileToS3 _ _ _ _ _ _) as [reported settled] eqn:E.
  pose proof (Transfer.uploadFileToS3_settles (Pipeline.opens w)
                (Pipeline.now_transfer w) file
                (presignedUrl data) (Pipeline.events w) (Pipeline.network w))
    as [r Hr].
  rewrite E in Hr. cbn in Hr. subst settled. cbn.
  destruct r as [message|key]; cbn; eauto.
Qed.

(** One click on the Upload button, left undisturbed, takes the component
    from Idle through Uploading to Success or Error. *)
Lemma handleUpload_reaches_terminal (p : Props) (w : Pipeline.World) (s : State) :
  offered s StartUpload = true ->
  let s' := run p s (Pipeline.handleUpload w s) in
  status (uploadStatus (step p s StartUpload)) = Uploading
  /\ (status (uploadStatus s') = Success \/ status (uploadStatus s') = Error).
Proof.
  intros Hoff. cbn in Hoff. apply andb_true_iff in Hoff as [Hfile _].
  unfold Pipeline.handleUpload.
  destruct (selectedFile s) as [file|] eqn:Ef; [|discriminate].
  cbv zeta. split; [cbn; unfold handleUpload_start; now rewrite Ef|].
  destruct (stages_settle w file) as [r Hr].
  destruct (Pipeline.stages w file) as [reported settled]. cbn in Hr. subst settled.
  change (StartUpload :: (map TransferProgress reported ++ [UploadSettled r])%list)
    with (([StartUpload] ++ map TransferProgress reported) ++ [UploadSettled r])%list.
  rewrite run_app. cbn [run fold_left step].
  destruct r as [message|[key analysisId]]; cbn; auto.
Qed.

(** The scenario of the happy path: a 2 MiB [parcel.kml], credentials
    issued, the store answers 200, and the component ends in Success with
    both callbacks' arguments in place. *)
Definition happyWorld : Pipeline.World :=
  {| Pipeline.fetch := fun _ =>
       Api.fetch_response 200 "OK"
         (json {| Api.d_presignedUrl :=
                    Some "https://store/bucket/input_kml_files/parcel.kml?sig=abc";
                  Api.d_fileKey := Some "input_kml_files/parcel.kml";
                  Api.d_expiresIn := Some 3600;
                  Api.d_fields := None |});
     Pipeline.now_key := 1700000000000;
     Pipeline.now_fields := 1700000000000;
     Pipeline.opens := fun _ => None;
     Pipeline.events :=
       [{| Xhr.lengthComputable := true; Xhr.ev_loaded := 1048576;
           Xhr.ev_total := 2097152 |};
        {| Xhr.lengthComputable := true; Xhr.ev_loaded := 2097152;
           Xhr.ev_total := 2097152 |}];
     Pipeline.network := Xhr.responds 1200 200;
     Pipeline.now_transfer := 1700000001200;
     Pipeline.now_process := 1700000003200;
     Pipeline.random36 := "0.4fzyo82mvyr" |}.

Example happy_path :
  let s := step defaultProps initial (SelectFile Orchestrator.goodFile) in
  let s' := run defaultProps s (Pipeline.handleUpload happyWorld s) in
  status (uploadStatus s') = Success
  /\ fileKey (uploadStatus s') = Some "parcel.kml"
  /\ percentage (progress (uploadStatus s')) = Num.of_Z 100
  /\ calls s' = [onUploadComplete "parcel.kml" "analysis-1700000003200-4fzyo82mv"].
Proof. vm_compute. repeat split; reflexivity. Qed.

(** A file that fails validation is never sent anywhere. *)
Example png_is_refused :
  let s := step defaultProps initial (SelectFile Orchestrator.badFile) in
  status (uploadStatus s) = Error
  /\ error (uploadStatus s) = Some "Only .kml, .kmz files are allowed"
  /\ selectedFile s = None
  /\ offered s StartUpload = false.
Proof. repeat split; reflexivity. Qed.

End Run.

(* ===================================================================== *)
(** * Facts about binary64 arithmetic *)
(* ===================================================================== *)

(** Division, multiplication and [Math.round] on the Numbers the progress
    listener meets: positive, with a mantissa of 53 bits, far from the ends
    of the exponent range.  The value of such a Number is read in the
    reals. *)
Module NumFacts.

(** A mantissa of [d] binary digits lies in [[2^(d-1), 2^d)]. *)
Lemma digits2_bounds (p : positive) :
  2 ^ (Zpos (digits2_pos p) - 1) <= Zpos p < 2 ^ Zpos (digits2_pos p).
Proof.
  induction p as [p IH|p IH|].
  - cbn [digits2_pos]. rewrite Pos2Z.inj_succ.
    replace (Z.succ (Zpos (digits2_pos p)) - 1) with (Z.succ (Zpos (digits2_pos p) - 1)) by lia.
    rewrite !Z.pow_succ_r by lia. lia.
  - cbn [digits2_pos]. rewrite Pos2Z.inj_succ.
    replace (Z.succ (Zpos (digits2_pos p)) - 1) with (Z.succ (Zpos (digits2_pos p) - 1)) by lia.
    rewrite !Z.pow_succ_r by lia. lia.
  - simpl; lia.
Qed.

Lemma digits2_unique (p : positive) (k : Z) :
  2 ^ (k - 1) <= Zpos p < 2 ^ k -> Zpos (digits2_pos p) = k.
Proof.
  intros [Hlo Hhi]. pose proof (digits2_bounds p) as [Dlo Dhi].
  assert (Hk : 0 < k).
  { destruct (Z.ltb_spec 0 k); [assumption|].
    rewrite (Z.pow_neg_r 2 (k-1)) in Hlo by lia.
    destruct (Z.eq_dec k 0) as [->|]; [cbn in Hhi; lia|].
    rewrite Z.pow_neg_r in Hhi by lia. lia. }
  destruct (Z.lt_trichotomy (Zpos (digits2_pos p)) k) as [H|[H|H]]; [|assumption|].
  - assert (2 ^ Zpos (digits2_pos p) <= 2 ^ (k - 1)) by (apply Z.pow_le_mono_r; lia). lia.
  - assert (2 ^ k <= 2 ^ (Zpos (digits2_pos p) - 1)) by (apply Z.pow_le_mono_r; lia). lia.
Qed.

(** Shifting right divides the mantissa by a power of two. *)
Lemma shr_1_m (mrs : shr_record) :
  0 <= shr_m mrs -> shr_m (shr_1 mrs) = shr_m mrs / 2.
Proof.
  destruct mrs as [m r s]. cbn [shr_m]. intros Hm.
  destruct m as [|[p|p|]|p]; cbn [shr_1 shr_m].
  - reflexivity.
  - apply Z.div_unique with (r := 1); lia.
  - apply Z.div_unique with (r := 0); lia.
  - reflexivity.
  - lia.
Qed.

Lemma iter_shr_1_m (n : positive) (mrs : shr_record) :
  0 <= shr_m mrs ->
  shr_m (SpecFloat.iter_pos shr_1 n mrs) = shr_m mrs / 2 ^ Zpos n.
Proof.
  revert mrs. induction n as [n IH|n IH|]; intros mrs Hm; cbn [SpecFloat.iter_pos].
  - assert (H1 : 0 <= shr_m (shr_1 mrs)) by (rewrite shr_1_m by assumption; apply Z.div_pos; lia).
    assert (H2 : 0 <= shr_m (SpecFloat.iter_pos shr_1 n (shr_1 mrs)))
      by (rewrite IH by assumption; apply Z.div_pos; lia).
    rewrite IH, IH, shr_1_m by assumption.
    rewrite !Z.div_div by lia.
    f_equal.
    replace (Zpos n~1) with (1 + Zpos n + Zpos n) by lia.
    rewrite !Z.pow_add_r by lia. lia.
  - assert (H2 : 0 <= shr_m (SpecFloat.iter_pos shr_1 n mrs))
      by (rewrite IH by assumption; apply Z.div_pos; lia).
    rewrite IH, IH by assumption.
    rewrite !Z.div_div by lia.
    f_equal.
    replace (Zpos n~0) with (Zpos n + Zpos n) by lia.
    rewrite !Z.pow_add_r by lia. lia.
  - now rewrite shr_1_m.
Qed.

Lemma shr_record_of_loc_m (m : Z) (l : location) : shr_m (shr_record_of_loc m l) = m.
Proof. destruct l as [|[| |]]; reflexivity. Qed.

Lemma round_nearest_even_cases (m : Z) (l : location) :
  round_nearest_even m l = m \/ round_nearest_even m l = m + 1.
Proof.
  destruct l as [|[| |]]; cbn; auto. destruct (Z.even m); auto.
Qed.

(** Away from the subnormal range the exponent of a value with [e] digits
    before the binary point is [e - 53]. *)
Lemma fexp_normal (e : Z) : -1074 <= e - 53 -> fexp Num.prec Num.emax e = e - 53.
Proof. intros H. unfold fexp, emin, Num.prec, Num.emax. lia. Qed.

Lemma shr_fexp_normal (m : positive) (e : Z) (l : location) (d : Z) :
  Zpos (digits2_pos m) = d ->
  53 <= d -> -1074 <= e + (d - 53) ->
  exists mrs,
    shr_fexp Num.prec Num.emax (Zpos m) e l = (mrs, e + (d - 53))
    /\ shr_m mrs = Zpos m / 2 ^ (d - 53).
Proof.
  intros Ed Hd He. unfold shr_fexp. cbn [Zdigits2]. rewrite Ed.
  rewrite fexp_normal by lia.
  replace (d + e - 53 - e) with (d - 53) by lia.
  destruct (d - 53) as [|n|n] eqn:En; [| |lia].
  - cbn [shr]. eexists. split; [f_equal; lia|].
    rewrite shr_record_of_loc_m. cbn. now rewrite Z.div_1_r.
  - cbn [shr]. eexists. split; [reflexivity|].
    rewrite iter_shr_1_m; rewrite shr_record_of_loc_m; [reflexivity|lia].
Qed.

(** Rounding a mantissa of [d >= 53] digits: the digits beyond the 53rd
    are dropped and the result is that mantissa or the next one (which is
    renormalised when it reaches [2^53]). *)
Lemma binary_round_aux_normal (mx : positive) (ex : Z) (lx : location) (d : Z) :
  Zpos (digits2_pos mx) = d ->
  53 <= d -> -1074 <= ex + (d - 53) -> ex + (d - 53) + 1 <= 971 ->
  exists m' e',
    binary_round_aux Num.prec Num.emax false (Zpos mx) ex lx = S754_finite false m' e'
    /\ 2 ^ 52 <= Zpos m' < 2 ^ 53
    /\ 2 ^ 52 <= Zpos mx / 2 ^ (d - 53) < 2 ^ 53
    /\ ((e' = ex + (d - 53)
         /\ (Zpos m' = Zpos mx / 2 ^ (d - 53) \/ Zpos m' = Zpos mx / 2 ^ (d - 53) + 1))
        \/ (e' = ex + (d - 53) + 1 /\ Zpos m' = 2 ^ 52
            /\ Zpos mx / 2 ^ (d - 53) + 1 = 2 ^ 53)).
Proof.
  intros Ed Hd Hlo Hhi.
  destruct (shr_fexp_normal mx ex lx Ed Hd Hlo) as (mrs & Hshr & Hm).
  remember (ex + (d - 53)) as e1 eqn:Ee1.
  remember (Zpos mx / 2 ^ (d - 53)) as base eqn:Ebase.
  assert (Hbase : 2 ^ 52 <= base < 2 ^ 53).
  { pose proof (digits2_bounds mx) as [Dlo Dhi]. rewrite Ed in Dlo, Dhi.
    replace (d - 1) with (52 + (d - 53)) in Dlo by lia.
    replace (2 ^ d) with (2 ^ (53 + (d - 53))) in Dhi by (f_equal; lia).
    rewrite Z.pow_add_r in Dlo, Dhi by lia.
    assert (0 < 2 ^ (d - 53)) by (apply Z.pow_pos_nonneg; lia).
    subst base. split.
    - apply Z.div_le_lower_bound; lia.
    - apply Z.div_lt_upper_bound; lia. }
  unfold binary_round_aux. rewrite Hshr.
  set (m1 := round_nearest_even (shr_m mrs) (loc_of_shr_record mrs)).
  assert (Hm1 : m1 = base \/ m1 = base + 1)
    by (unfold m1; rewrite Hm; apply round_nearest_even_cases).
  clearbody m1.
  destruct (Z.ltb_spec m1 (2 ^ 53)) as [Hlt|Hge].
  - destruct m1 as [|p1|p1]; [lia| |lia].
    assert (Hdig : Zpos (digits2_pos p1) = 53) by (apply digits2_unique; lia).
    unfold shr_fexp. cbn [Zdigits2]. rewrite Hdig.
    rewrite fexp_normal by lia.
    replace (53 + e1 - 53 - e1) with 0 by lia. cbn [shr shr_record_of_loc shr_m].
    assert (E : (e1 <=? Num.emax - Num.prec) = true) by (apply Z.leb_le; unfold Num.emax, Num.prec; lia).
    rewrite E. exists p1, e1. split; [reflexivity|]. split; [lia|].
    split; [exact Hbase|]. left. auto.
  - assert (E53 : m1 = 2 ^ 53) by lia.
    rewrite E53. change (2 ^ 53) with (Zpos (2 ^ 53)%positive).
    unfold shr_fexp. cbn [Zdigits2].
    change (Zpos (digits2_pos (2 ^ 53))) with 54.
    rewrite fexp_normal by lia.
    replace (54 + e1 - 53 - e1) with 1 by lia.
    cbn [shr shr_record_of_loc SpecFloat.iter_pos]. cbn [shr_1 shr_m].
    assert (E : (e1 + 1 <=? Num.emax - Num.prec) = true) by (apply Z.leb_le; unfold Num.emax, Num.prec; lia).
    rewrite E. eexists. eexists. split; [reflexivity|].
    split; [cbn; lia|]. split; [exact Hbase|]. right. repeat split. lia.
Qed.

(** An exact mantissa of 53 bits is kept. *)
Lemma binary_round_aux_exact (mx : positive) (ex : Z) :
  Zpos (digits2_pos mx) = 53 -> -1074 <= ex <= 971 ->
  binary_round_aux Num.prec Num.emax false (Zpos mx) ex loc_Exact = S754_finite false mx ex.
Proof.
  intros Hd He. unfold binary_round_aux, shr_fexp. cbn [Zdigits2].
  rewrite Hd, fexp_normal by lia.
  replace (53 + ex - 53 - ex) with 0 by lia.
  cbn [shr shr_record_of_loc shr_m loc_of_shr_record round_nearest_even Zdigits2].
  rewrite Hd, fexp_normal by lia.
  replace (53 + ex - 53 - ex) with 0 by lia.
  cbn [shr shr_record_of_loc shr_m].
  assert (E : (ex <=? Num.emax - Num.prec) = true) by (apply Z.leb_le; unfold Num.emax, Num.prec; lia).
  now rewrite E.
Qed.

Lemma iter_xO_pow (p k : positive) : Zpos (Pos.iter xO p k) = Zpos p * 2 ^ Zpos k.
Proof.
  induction k as [|k IH] using Pos.peano_ind.
  - simpl; lia.
  - rewrite Pos.iter_succ, Pos2Z.inj_succ, Z.pow_succ_r by lia.
    change (Zpos (Pos.iter xO p k)~0) with (2 * Zpos (Pos.iter xO p k)). lia.
Qed.

(** Integers below [2^53] are Numbers: a mantissa of 53 bits and the
    exponent that brings it back. *)
Lemma of_Z_exact (z : Z) :
  1 <= z < 2 ^ 53 ->
  exists m e,
    Num.of_Z z = S754_finite false m e
    /\ Zpos (digits2_pos m) = 53
    /\ -52 <= e <= 0
    /\ Zpos m = z * 2 ^ (- e).
Proof.
  intros Hz. destruct z as [|p|p]; [lia| |lia].
  unfold Num.of_Z, binary_normalize, binary_round.
  pose proof (digits2_bounds p) as [Dlo Dhi].
  remember (Zpos (digits2_pos p)) as d eqn:Ed.
  assert (Hd : 1 <= d <= 53).
  { split; [lia|].
    destruct (Z.leb_spec d 53); [assumption|].
    assert (2 ^ 53 <= 2 ^ (d - 1)) by (apply Z.pow_le_mono_r; lia). lia. }
  rewrite Z.add_0_r, fexp_normal by lia.
  unfold shl_align. replace (d - 53 - 0) with (d - 53) by lia.
  destruct (d - 53) as [|k|k] eqn:Ek; [|lia|].
  - assert (d = 53) by lia. subst d.
    rewrite binary_round_aux_exact by lia.
    exists p, 0. repeat split; lia.
  - assert (Hm : Zpos (Pos.iter xO p k) = Zpos p * 2 ^ (53 - d))
      by (rewrite iter_xO_pow; f_equal; f_equal; lia).
    assert (Hp : 0 < 2 ^ (53 - d)) by (apply Z.pow_pos_nonneg; lia).
    assert (Hdig : Zpos (digits2_pos (Pos.iter xO p k)) = 53).
    { apply digits2_unique. rewrite Hm.
      assert (E52 : 2 ^ (53 - 1) = 2 ^ (d - 1) * 2 ^ (53 - d))
        by (rewrite <- Z.pow_add_r by lia; f_equal; lia).
      assert (E53 : 2 ^ 53 = 2 ^ d * 2 ^ (53 - d))
        by (rewrite <- Z.pow_add_r by lia; f_equal; lia).
      rewrite E52, E53. split.
      - apply Z.mul_le_mono_nonneg_r; lia.
      - apply Z.mul_lt_mono_pos_r; lia. }
    rewrite binary_round_aux_exact by lia.
    eexists. eexists. split; [reflexivity|]. split; [exact Hdig|].
    split; [lia|]. rewrite Hm. f_equal. f_equal. lia.
Qed.

Definition pow2 (e : Z) : R := powerRZ 2 e.

Definition val (m : positive) (e : Z) : R := (IZR (Zpos m) * pow2 e)%R.

Lemma pow2_pos (e : Z) : (0 < pow2 e)%R.
Proof. apply powerRZ_lt. lra. Qed.

Lemma pow2_add (a b : Z) : pow2 (a + b) = (pow2 a * pow2 b)%R.
Proof. apply powerRZ_add. lra. Qed.

Lemma pow2_IZR (n : Z) : 0 <= n -> IZR (2 ^ n) = pow2 n.
Proof.
  intros Hn. unfold pow2.
  rewrite <- (Z2Nat.id n Hn), <- pow_powerRZ, pow_IZR. reflexivity.
Qed.

Lemma pow2_ge_1 (e : Z) : 0 <= e -> (1 <= pow2 e)%R.
Proof.
  intros He. rewrite <- pow2_IZR by assumption.
  apply IZR_le. assert (0 < 2 ^ e) by (apply Z.pow_pos_nonneg; lia). lia.
Qed.

Lemma Rabs_le_inv (x a : R) : (Rabs x <= a)%R -> (- a <= x <= a)%R.
Proof. unfold Rabs. destruct (Rcase_abs x); lra. Qed.

Lemma pow2_1 : pow2 1 = 2%R.
Proof. unfold pow2. apply powerRZ_1. Qed.

Lemma pow2_52 : (pow2 (-52) * 4503599627370496 = 1)%R.
Proof.
  change 4503599627370496%R with (IZR (2 ^ 52)).
  rewrite pow2_IZR, <- pow2_add by lia. reflexivity.
Qed.

(** Rounding a positive value whose mantissa has at least 53 bits, away
    from the ends of the exponent range: the result is within one unit in
    the last place, that is, within [2^-52] of the value itself. *)
Lemma round_rel (mx : positive) (ex : Z) (lx : location) (d : Z) (T : R) :
  Zpos (digits2_pos mx) = d ->
  53 <= d -> -1074 <= ex + (d - 53) -> ex + (d - 53) + 1 <= 971 ->
  (IZR (Zpos mx) * pow2 ex <= T < (IZR (Zpos mx) + 1) * pow2 ex)%R ->
  exists m' e',
    binary_round_aux Num.prec Num.emax false (Zpos mx) ex lx = S754_finite false m' e'
    /\ 2 ^ 52 <= Zpos m' < 2 ^ 53
    /\ ex + (d - 53) <= e' <= ex + (d - 53) + 1
    /\ (Rabs (val m' e' - T) <= T * pow2 (-52))%R.
Proof.
  intros Ed Hd Hlo Hhi HT.
  destruct (binary_round_aux_normal mx ex lx Ed Hd Hlo Hhi)
    as (m' & e' & Hres & Hm' & Hbase & Hcases).
  exists m', e'. split; [exact Hres|]. split; [exact Hm'|].
  split; [destruct Hcases as [[-> _]|[-> _]]; lia|].
  remember (d - 53) as n eqn:En.
  remember (Zpos mx / 2 ^ n) as base eqn:Ebase.
  assert (Hpn : 0 < 2 ^ n) by (apply Z.pow_pos_nonneg; lia).
  assert (Hdiv : base * 2 ^ n <= Zpos mx < (base + 1) * 2 ^ n).
  { pose proof (Z.div_mod (Zpos mx) (2 ^ n)) as Hdm.
    pose proof (Z.mod_pos_bound (Zpos mx) (2 ^ n) Hpn) as Hmod.
    rewrite <- Ebase in Hdm. lia. }
  assert (Hb : 2 ^ 52 <= base) by (apply Hbase).
  pose proof (pow2_pos ex) as Pex. pose proof (pow2_pos (ex + n)) as PE.
  pose proof pow2_52 as Hu. pose proof (pow2_pos (-52)) as Pu.
  assert (EE : (pow2 (ex + n) = IZR (2 ^ n) * pow2 ex)%R)
    by (rewrite pow2_add, pow2_IZR by lia; ring).
  assert (E1 : (pow2 (ex + n + 1) = 2 * pow2 (ex + n))%R)
    by (rewrite pow2_add, pow2_1; ring).
  remember (pow2 (ex + n)) as E eqn:EqE.
  remember (IZR base * E)%R as bE eqn:EqbE.
  assert (H1 : (bE <= IZR (Zpos mx) * pow2 ex)%R).
  { rewrite EqbE, EE, <- Rmult_assoc, <- mult_IZR.
    apply Rmult_le_compat_r; [lra|]. apply IZR_le. lia. }
  assert (H2 : ((IZR (Zpos mx) + 1) * pow2 ex <= bE + E)%R).
  { rewrite EqbE, EE.
    replace (IZR base * (IZR (2 ^ n) * pow2 ex) + IZR (2 ^ n) * pow2 ex)%R
      with (IZR ((base + 1) * 2 ^ n) * pow2 ex)%R
      by (rewrite mult_IZR, plus_IZR; ring).
    apply Rmult_le_compat_r; [lra|].
    rewrite <- plus_IZR. apply IZR_le. lia. }
  assert (H3 : (4503599627370496 * E <= bE)%R).
  { rewrite EqbE. apply Rmult_le_compat_r; [lra|].
    change 4503599627370496%R with (IZR (2 ^ 52)). apply IZR_le. exact Hb. }
  assert (Hval : val m' e' = bE \/ val m' e' = (bE + E)%R).
  { unfold val. destruct Hcases as [[-> [Hc|Hc]]|[-> [Hc Hc']]].
    - left. rewrite Hc, <- EqE. now rewrite EqbE.
    - right. rewrite Hc, plus_IZR, <- EqE, EqbE. ring.
    - right. rewrite Hc, E1, EqbE.
      assert (Hb1 : IZR base = (IZR (2 ^ 53) - 1)%R)
        by (rewrite <- Hc', plus_IZR; ring).
      rewrite Hb1.
      change (IZR (2 ^ 52)) with 4503599627370496%R.
      change (IZR (2 ^ 53)) with 9007199254740992%R. ring. }
  assert (HE : (E <= T * pow2 (-52))%R).
  { assert (E = pow2 (-52) * (4503599627370496 * E))%R by (rewrite <- Rmult_assoc, Hu; ring).
    assert (pow2 (-52) * (4503599627370496 * E) <= pow2 (-52) * T)%R
      by (apply Rmult_le_compat_l; lra).
    lra. }
  clear EqE EqbE.
  apply Rabs_le. destruct Hval as [-> | ->]; lra.
Qed.

Lemma digits_53_bounds (m : positive) :
  Zpos (digits2_pos m) = 53 -> 2 ^ 52 <= Zpos m < 2 ^ 53.
Proof. intros H. pose proof (digits2_bounds m) as B. rewrite H in B. exact B. Qed.

Lemma digits_between (p : positive) (a b : Z) :
  0 <= a -> 2 ^ a <= Zpos p < 2 ^ b -> a + 1 <= Zpos (digits2_pos p) <= b.
Proof.
  intros Ha [Hlo Hhi]. pose proof (digits2_bounds p) as [Dlo Dhi].
  remember (Zpos (digits2_pos p)) as d. split.
  - destruct (Z.leb_spec (a + 1) d); [assumption|].
    assert (2 ^ d <= 2 ^ a) by (apply Z.pow_le_mono_r; lia). lia.
  - destruct (Z.leb_spec d b); [assumption|].
    assert (2 ^ b <= 2 ^ (d - 1)) by (apply Z.pow_le_mono_r; lia). lia.
Qed.

Lemma val_pos (m : positive) (e : Z) : (0 < val m e)%R.
Proof.
  unfold val. apply Rmult_lt_0_compat; [apply IZR_lt; lia|apply pow2_pos].
Qed.

(** Multiplication of two positive Numbers with full mantissas. *)
Lemma mul_rel (m1 m2 : positive) (e1 e2 : Z) :
  Zpos (digits2_pos m1) = 53 -> Zpos (digits2_pos m2) = 53 ->
  -1000 <= e1 + e2 <= 900 ->
  exists m e,
    Num.mul (S754_finite false m1 e1) (S754_finite false m2 e2)
    = S754_finite false m e
    /\ 2 ^ 52 <= Zpos m < 2 ^ 53
    /\ e1 + e2 + 52 <= e <= e1 + e2 + 54
    /\ (Rabs (val m e - val m1 e1 * val m2 e2)
        <= val m1 e1 * val m2 e2 * pow2 (-52))%R.
Proof.
  intros D1 D2 He.
  apply digits_53_bounds in D1, D2.
  assert (Hprod : 2 ^ 104 <= Zpos (m1 * m2) < 2 ^ 106).
  { rewrite Pos2Z.inj_mul.
    change (2 ^ 104) with (2 ^ 52 * 2 ^ 52). change (2 ^ 106) with (2 ^ 53 * 2 ^ 53).
    split; [apply Z.mul_le_mono_nonneg; lia|apply Z.mul_lt_mono_nonneg; lia]. }
  pose proof (@digits_between (m1 * m2) 104 106 ltac:(lia) Hprod) as Hd.
  unfold Num.mul. cbn [SFmul xorb].
  destruct (@round_rel (m1 * m2) (e1 + e2) loc_Exact _
              (val m1 e1 * val m2 e2) eq_refl) as (m & e & Hres & Hm & Hex & Herr);
    try lia.
  - unfold val. rewrite Pos2Z.inj_mul, mult_IZR, pow2_add.
    pose proof (pow2_pos e1). pose proof (pow2_pos e2).
    assert (0 < pow2 e1 * pow2 e2)%R by (apply Rmult_lt_0_compat; assumption).
    split; [right; ring|].
    apply Rle_lt_trans with (IZR (Zpos m1) * IZR (Zpos m2) * (pow2 e1 * pow2 e2))%R;
      [right; ring|].
    apply Rmult_lt_compat_r; lra.
  - exists m, e. repeat split; try assumption; lia.
Qed.

(** Division of two positive Numbers with full mantissas. *)
Lemma div_rel (m1 m2 : positive) (e1 e2 : Z) :
  Zpos (digits2_pos m1) = 53 -> Zpos (digits2_pos m2) = 53 ->
  -900 <= e1 - e2 <= 900 ->
  exists m e,
    Num.div (S754_finite false m1 e1) (S754_finite false m2 e2)
    = S754_finite false m e
    /\ 2 ^ 52 <= Zpos m < 2 ^ 53
    /\ e1 - e2 - 53 <= e <= e1 - e2 - 51
    /\ (Rabs (val m e - val m1 e1 / val m2 e2)
        <= val m1 e1 / val m2 e2 * pow2 (-52))%R.
Proof.
  intros D1 D2 He.
  unfold Num.div. cbn [SFdiv xorb]. unfold SFdiv_core_binary. cbn [Zdigits2].
  rewrite D1, D2.
  replace (53 + e1 - (53 + e2)) with (e1 - e2) by lia.
  rewrite fexp_normal by lia.
  rewrite Z.min_l by lia.
  replace (e1 - e2 - (e1 - e2 - 53)) with 53 by lia.
  rewrite Z.shiftl_mul_pow2 by lia.
  apply digits_53_bounds in D1, D2.
  pose proof (Z_div_mod (Zpos m1 * 2 ^ 53) (Zpos m2) ltac:(lia)) as Hdm.
  destruct (Z.div_eucl (Zpos m1 * 2 ^ 53) (Zpos m2)) as [q r].
  destruct Hdm as [Hq Hr].
  assert (Hqb : 2 ^ 52 <= q < 2 ^ 54).
  { change (2 ^ 54) with (2 * 2 ^ 53). change (2 ^ 53) with (2 * 2 ^ 52) in *.
    remember (2 ^ 52) as P. split; nia. }
  destruct q as [|pq|pq]; [lia| |lia].
  pose proof (@digits_between pq 52 54 ltac:(lia) Hqb) as Hd.
  destruct (@round_rel pq (e1 - e2 - 53) (new_location (Zpos m2) r) _
              (val m1 e1 / val m2 e2) eq_refl) as (m & e & Hres & Hm & Hex & Herr);
    try lia.
  - unfold val.
    pose proof (pow2_pos e1) as P1. pose proof (pow2_pos e2) as P2.
    pose proof (pow2_pos (e1 - e2 - 53)) as P3.
    assert (Hm2 : (0 < IZR (Zpos m2))%R) by (apply IZR_lt; lia).
    assert (Epow : (pow2 e1 = pow2 (e1 - e2 - 53) * IZR (2 ^ 53) * pow2 e2)%R).
    { rewrite pow2_IZR, <- !pow2_add by lia. f_equal. lia. }
    assert (Hquot : (IZR (Zpos m1) * pow2 e1 / (IZR (Zpos m2) * pow2 e2)
                     = IZR (Zpos m1 * 2 ^ 53) / IZR (Zpos m2) * pow2 (e1 - e2 - 53))%R).
    { rewrite Epow, mult_IZR. field. lra. }
    rewrite Hquot, Hq, plus_IZR, mult_IZR.
    split.
    + apply Rmult_le_compat_r; [lra|].
      apply Rle_trans with (IZR (Zpos m2) * IZR (Zpos pq) / IZR (Zpos m2))%R.
      * right. field. lra.
      * apply Rmult_le_compat_r; [left; now apply Rinv_0_lt_compat|].
        assert (0 <= IZR r)%R by (apply IZR_le; lia). lra.
    + apply Rmult_lt_compat_r; [lra|].
      apply Rlt_le_trans with
        ((IZR (Zpos m2) * IZR (Zpos pq) + IZR (Zpos m2)) / IZR (Zpos m2))%R.
      * apply Rmult_lt_compat_r; [now apply Rinv_0_lt_compat|].
        assert (IZR r < IZR (Zpos m2))%R by (apply IZR_lt; lia). lra.
      * right. field. lra.
  - exists m, e. repeat split; try assumption; lia.
Qed.

Lemma of_Z_val (z : Z) :
  1 <= z < 2 ^ 53 ->
  exists m e,
    Num.of_Z z = S754_finite false m e
    /\ Zpos (digits2_pos m) = 53
    /\ -52 <= e <= 0
    /\ val m e = IZR z.
Proof.
  intros Hz. destruct (of_Z_exact Hz) as (m & e & H1 & H2 & H3 & H4).
  exists m, e. repeat split; try assumption; try lia.
  unfold val. rewrite H4, mult_IZR, pow2_IZR, Rmult_assoc, <- pow2_add by lia.
  replace (- e + e) with 0 by lia. unfold pow2. cbn. ring.
Qed.

Lemma of_Z_100 : Num.of_Z 100 = S754_finite false 7036874417766400 (-46).
Proof. vm_compute. reflexivity. Qed.

Lemma val_100 : val 7036874417766400 (-46) = 100%R.
Proof.
  unfold val. change (Zpos 7036874417766400) with (100 * 2 ^ 46).
  rewrite mult_IZR, pow2_IZR, Rmult_assoc, <- pow2_add by lia.
  unfold pow2. cbn. ring.
Qed.

(** [Math.round] of a positive Number below [2^52]: the integer [k] with
    [k <= x + 1/2 < k + 1]. *)
Lemma Math_round_small (m : positive) (e : Z) :
  e < 0 ->
  exists k,
    Num.Math_round (S754_finite false m e) = Num.of_Z k
    /\ (IZR k <= val m e + / 2 < IZR k + 1)%R.
Proof.
  intros He. exists ((2 * Zpos m + 2 ^ (- e)) / 2 ^ (- e + 1)).
  split.
  - unfold Num.Math_round. apply Z.leb_gt in He. rewrite He. reflexivity.
  - remember (2 ^ (- e)) as P eqn:EP.
    assert (HP : 0 < P) by (subst P; apply Z.pow_pos_nonneg; lia).
    assert (E2 : 2 ^ (- e + 1) = 2 * P)
      by (rewrite Z.pow_add_r by lia; subst P; lia).
    rewrite E2.
    pose proof (Z.div_mod (2 * Zpos m + P) (2 * P) ltac:(lia)) as Hdm.
    pose proof (Z.mod_pos_bound (2 * Zpos m + P) (2 * P) ltac:(lia)) as Hmod.
    remember ((2 * Zpos m + P) / (2 * P)) as k eqn:Ek.
    remember ((2 * Zpos m + P) mod (2 * P)) as r eqn:Er.
    assert (Hinv : (IZR P * pow2 e = 1)%R).
    { subst P. rewrite pow2_IZR, <- pow2_add by lia.
      replace (- e + e) with 0 by lia. reflexivity. }
    pose proof (pow2_pos e) as Pe.
    assert (HPr : (0 < IZR P)%R) by (apply IZR_lt; lia).
    unfold val.
    assert (Hsum : (IZR (Zpos m) * pow2 e + / 2
                    = (2 * IZR k * IZR P + IZR r) * pow2 e / 2)%R).
    { apply (f_equal IZR) in Hdm.
      rewrite !plus_IZR, !mult_IZR in Hdm.
      replace ((2 * IZR k * IZR P + IZR r) * pow2 e / 2)%R
        with ((2 * IZR P * IZR k + IZR r) * pow2 e / 2)%R by field.
      rewrite <- Hdm.
      replace ((2 * IZR (Zpos m) + IZR P) * pow2 e / 2)%R
        with (IZR (Zpos m) * pow2 e + (IZR P * pow2 e) / 2)%R by field.
      rewrite Hinv. field. }
    rewrite Hsum.
    assert (Hr0 : (0 <= IZR r)%R) by (apply IZR_le; lia).
    assert (Hr1 : (IZR r < 2 * IZR P)%R)
      by (rewrite <- mult_IZR; apply IZR_lt; lia).
    replace ((2 * IZR k * IZR P + IZR r) * pow2 e / 2)%R
      with (IZR k * (IZR P * pow2 e) + IZR r * pow2 e / 2)%R by field.
    rewrite Hinv.
    assert (Hrp0 : (0 <= IZR r * pow2 e)%R) by (apply Rmult_le_pos; lra).
    assert (Hrp1 : (IZR r * pow2 e < 2 * (IZR P * pow2 e))%R).
    { rewrite <- Rmult_assoc. apply Rmult_lt_compat_r; lra. }
    rewrite Hinv in Hrp1. lra.
Qed.

(** Every unsigned 64-bit integer becomes a Number with a full mantissa,
    within [2^-52] of it (exactly it below [2^53]). *)
Lemma of_Z_rel (z : Z) :
  1 <= z < 2 ^ 64 ->
  exists m e,
    Num.of_Z z = S754_finite false m e
    /\ Zpos (digits2_pos m) = 53
    /\ -52 <= e <= 12
    /\ (Rabs (val m e - IZR z) <= IZR z * pow2 (-52))%R.
Proof.
  intros Hz. destruct (Z.ltb_spec z (2 ^ 53)) as [Hsmall|Hbig].
  - destruct (@of_Z_val z ltac:(lia)) as (m & e & H1 & H2 & H3 & H4).
    exists m, e. repeat split; try assumption; try lia.
    rewrite H4, Rminus_diag, Rabs_R0.
    apply Rmult_le_pos; [apply IZR_le; lia|left; apply pow2_pos].
  - destruct z as [|p|p]; [lia| |lia].
    pose proof (@digits_between p 53 64 ltac:(lia) ltac:(lia)) as Hd.
    unfold Num.of_Z, binary_normalize, binary_round.
    rewrite Z.add_0_r, fexp_normal by lia.
    unfold shl_align.
    destruct (Z.pos (digits2_pos p) - 53 - 0) as [|k|k] eqn:Ek; [lia| |lia].
    destruct (@round_rel p 0 loc_Exact _ (IZR (Zpos p)) eq_refl)
      as (m & e & Hres & Hm & Hex & Herr); try lia.
    + unfold pow2. cbn [powerRZ]. lra.
    + exists m, e. split; [exact Hres|].
      split; [apply digits2_unique; exact Hm|]. split; [lia|exact Herr].
Qed.

Lemma percent_zero (t : Z) :
  1 <= t < 2 ^ 64 -> Num.Math_round (Num.mul (Num.div (Num.of_Z 0) (Num.of_Z t)) (Num.of_Z 100)) = Num.of_Z 0.
Proof.
  intros Ht. destruct (of_Z_rel Ht) as (mt & et & Et & _).
  rewrite Et, of_Z_100. reflexivity.
Qed.

(** A quotient of two values known within [u] is known within [3 u]. *)
Lemma quotient_error (a b x y u : R) :
  (0 < a)%R -> (0 < b)%R -> (0 < u)%R -> (3 * u <= 1)%R ->
  (Rabs (x - a) <= a * u)%R -> (Rabs (y - b) <= b * u)%R ->
  (0 < y)%R /\ (Rabs (x / y - a / b) <= a / b * (3 * u))%R.
Proof.
  intros Ha Hb Hu Hu3 Hx Hy.
  apply Rabs_le_inv in Hx, Hy.
  assert (Hbu : (0 <= b * u <= b / 3)%R).
  { split; [apply Rmult_le_pos; lra|].
    unfold Rdiv. apply Rmult_le_compat_l; lra. }
  assert (Hy0 : (0 < y)%R) by lra.
  split; [exact Hy0|].
  assert (Hab : (0 < a / b)%R) by (apply Rdiv_lt_0_compat; lra).
  assert (Hq : (x / y - a / b = (x * b - a * y) / (y * b))%R) by (field; lra).
  assert (Hyb : (0 < y * b)%R) by (apply Rmult_lt_0_compat; lra).
  assert (Hau : (0 <= a * u)%R) by (apply Rmult_le_pos; lra).
  (* |x b - a y| <= 2 a b u, and y b >= b^2 (1 - u) *)
  assert (Habu : (0 <= a * u * b)%R) by (apply Rmult_le_pos; lra).
  assert (Hnum : (- (2 * (a * u * b)) <= x * b - a * y <= 2 * (a * u * b))%R).
  { assert (H1 : ((x - a) * b <= a * u * b)%R) by (apply Rmult_le_compat_r; lra).
    assert (H2 : (- (a * u) * b <= (x - a) * b)%R) by (apply Rmult_le_compat_r; lra).
    assert (H3 : (a * (y - b) <= a * (b * u))%R) by (apply Rmult_le_compat_l; lra).
    assert (H4 : (a * (- (b * u)) <= a * (y - b))%R) by (apply Rmult_le_compat_l; lra).
    lra. }
  assert (Hden : (2 * (a * u * b) <= a / b * (3 * u) * (y * b))%R).
  { replace (a / b * (3 * u) * (y * b))%R with (3 * (a * u) * y)%R by (field; lra).
    assert (H5 : (a * u * (2 * b) <= a * u * (3 * y))%R).
    { apply Rmult_le_compat_l; [lra|]. lra. }
    lra. }
  rewrite Hq. apply Rabs_le.
  assert (Hinv : (0 < / (y * b))%R) by (apply Rinv_0_lt_compat; lra).
  assert (Hb3 : (0 <= a / b * (3 * u))%R)
    by (apply Rmult_le_pos; lra).
  split.
  - apply Rmult_le_reg_r with (y * b)%R; [lra|].
    unfold Rdiv at 2. rewrite Rmult_assoc, Rinv_l by lra. lra.
  - apply Rmult_le_reg_r with (y * b)%R; [lra|].
    unfold Rdiv at 1. rewrite Rmult_assoc, Rinv_l by lra. lra.
Qed.

(** The Number computed for the percentage is within [700 * 2^-52] of
    the exact quotient, and has a negative exponent. *)
Lemma percent_value (l t : Z) :
  1 <= l <= t -> t < 2 ^ 64 ->
  exists m e,
    Num.mul (Num.div (Num.of_Z l) (Num.of_Z t)) (Num.of_Z 100)
    = S754_finite false m e
    /\ e < 0
    /\ (Rabs (val m e - 100 * IZR l / IZR t) <= 700 * pow2 (-52))%R.
Proof.
  intros Hl Ht.
  destruct (@of_Z_rel l ltac:(lia)) as (ml & el & El & Dl & Rl & Vl).
  destruct (@of_Z_rel t ltac:(lia)) as (mt & et & Et & Dt & Rt & Vt).
  rewrite El, Et, of_Z_100.
  destruct (@div_rel ml mt el et Dl Dt ltac:(lia)) as (mq & eq & Eq & Mq & Rq & Vq).
  rewrite Eq.
  assert (Dq : Zpos (digits2_pos mq) = 53) by (apply digits2_unique; exact Mq).
  destruct (@mul_rel mq 7036874417766400 eq (-46) Dq eq_refl ltac:(lia))
    as (mp & ep & Ep & Mp & Rp & Vp).
  rewrite val_100 in Vp.
  exists mp, ep. split; [exact Ep|].
  pose proof pow2_52 as Hu. pose proof (pow2_pos (-52)) as Pu.
  remember (pow2 (-52)) as u eqn:Eu.
  assert (Hu1 : (1000 * u <= 1)%R) by lra.
  assert (HL : (1 <= IZR l)%R) by (apply IZR_le; lia).
  assert (HT : (IZR l <= IZR t)%R) by (apply IZR_le; lia).
  destruct (@quotient_error (IZR l) (IZR t) (val ml el) (val mt et) u
              ltac:(lra) ltac:(lra) Pu ltac:(lra) Vl Vt) as [_ VR].
  remember (IZR l / IZR t)%R as A eqn:EA.
  assert (HA : (0 < A <= 1)%R).
  { subst A. split.
    - apply Rdiv_lt_0_compat; lra.
    - apply Rmult_le_reg_r with (IZR t); [lra|].
      unfold Rdiv. rewrite Rmult_assoc, Rinv_l by lra. lra. }
  remember (val ml el / val mt et)%R as R eqn:ER.
  remember (val mq eq) as Q eqn:EQ.
  remember (val mp ep) as P eqn:EqP.
  apply Rabs_le_inv in Vq, Vp, VR.
  assert (HW : (0 <= A * u <= u)%R).
  { split; [apply Rmult_le_pos; lra|].
    rewrite <- (Rmult_1_l u) at 2. apply Rmult_le_compat_r; lra. }
  assert (HW' : (1000 * (A * u) <= A)%R).
  { replace (1000 * (A * u))%R with (A * (1000 * u))%R by ring.
    rewrite <- (Rmult_1_r A) at 2. apply Rmult_le_compat_l; lra. }
  assert (HR : (0 <= R <= 2 * A)%R) by lra.
  assert (HRu : (0 <= R * u <= 2 * (A * u))%R).
  { split; [apply Rmult_le_pos; lra|].
    rewrite <- Rmult_assoc. apply Rmult_le_compat_r; lra. }
  assert (HQ : (0 <= Q <= 2 * A)%R) by lra.
  assert (HQu : (0 <= Q * u <= 2 * (A * u))%R).
  { split; [apply Rmult_le_pos; lra|].
    rewrite <- Rmult_assoc. apply Rmult_le_compat_r; lra. }
  assert (Herr : (Rabs (P - 100 * IZR l / IZR t) <= 700 * u)%R).
  { replace (100 * IZR l / IZR t)%R with (100 * A)%R by (subst A; field; lra).
    apply Rabs_le. lra. }
  split; [|exact Herr].
  destruct (Z.ltb_spec ep 0) as [|Hep]; [assumption|exfalso].
  pose proof (pow2_ge_1 Hep) as H1.
  assert (H2 : (4503599627370496 <= IZR (Zpos mp))%R)
    by (change 4503599627370496%R with (IZR (2 ^ 52)); apply IZR_le; lia).
  assert (H3 : (4503599627370496 * 1 <= P)%R).
  { subst P. unfold val. apply Rmult_le_compat; lra. }
  apply Rabs_le_inv in Herr.
  replace (100 * IZR l / IZR t)%R with (100 * A)%R in Herr by (subst A; field; lra).
  lra.
Qed.

Lemma percent_spec (l t : Z) :
  0 <= l <= t -> 0 < t -> t < 2 ^ 64 ->
  exists k,
    Num.Math_round (Num.mul (Num.div (Num.of_Z l) (Num.of_Z t)) (Num.of_Z 100)) = Num.of_Z k
    /\ 0 <= k <= 100
    /\ 100 * l / t <= k <= 100 * l / t + 1
    /\ 2 ^ 40 * Z.abs (2 * (k * t - 100 * l)) <= (2 ^ 40 + 1) * t.
Proof.
  intros Hl Ht Ht64.
  destruct (Z.eq_dec l 0) as [->|Hl0].
  - exists 0. rewrite percent_zero by lia.
    split; [reflexivity|]. split; [lia|].
    rewrite Z.mul_0_r, Z.div_0_l by lia.
    change (2 ^ 40) with 1099511627776. lia.
  - destruct (@percent_value l t ltac:(lia) Ht64) as (m & e & Ev & He & Herr).
    destruct (Math_round_small m He) as (k & Ek & Hk).
    exists k. split; [now rewrite Ev|].
    pose proof pow2_52 as Hu. pose proof (pow2_pos (-52)) as Pu.
    remember (pow2 (-52)) as u eqn:Eu.
    pose proof (val_pos m e) as Pv.
    remember (val m e) as V eqn:EV.
    apply Rabs_le_inv in Herr.
    assert (HL : (1 <= IZR l)%R) by (apply IZR_le; lia).
    assert (HLT : (IZR l <= IZR t)%R) by (apply IZR_le; lia).
    assert (HT0 : (0 < IZR t)%R) by lra.
    remember (100 * IZR l / IZR t)%R as X eqn:EX.
    assert (HXt : (X * IZR t = 100 * IZR l)%R) by (subst X; field; lra).
    assert (HX : (0 < X <= 100)%R).
    { split.
      - apply Rmult_lt_reg_r with (IZR t); [lra|]. rewrite HXt. lra.
      - apply Rmult_le_reg_r with (IZR t); [lra|]. rewrite HXt. lra. }
    remember (100 * l / t) as F eqn:EF.
    assert (HF : F * t <= 100 * l < (F + 1) * t).
    { pose proof (Z.div_mod (100 * l) t ltac:(lia)) as Hdm.
      pose proof (Z.mod_pos_bound (100 * l) t ltac:(lia)) as Hmod.
      rewrite <- EF in Hdm. lia. }
    assert (HFX : (IZR F <= X < IZR F + 1)%R).
    { split.
      - apply Rmult_le_reg_r with (IZR t); [lra|].
        rewrite HXt, <- mult_IZR.
        change 100%R with (IZR 100). rewrite <- mult_IZR. apply IZR_le. lia.
      - apply Rmult_lt_reg_r with (IZR t); [lra|].
        rewrite HXt. change 100%R with (IZR 100).
        rewrite <- (plus_IZR F 1), <- !mult_IZR. apply IZR_lt. lia. }
    split; [|split].
    + split.
      * assert (H : (IZR (-1) < IZR k)%R) by (cbn; lra).
        apply lt_IZR in H. lia.
      * assert (H : (IZR k < IZR 101)%R) by (cbn; lra).
        apply lt_IZR in H. lia.
    + split.
      * assert (H : (IZR (F - 1) < IZR k)%R) by (rewrite minus_IZR; lra).
        apply lt_IZR in H. lia.
      * assert (H : (IZR k < IZR (F + 2))%R) by (rewrite plus_IZR; lra).
        apply lt_IZR in H. lia.
    + assert (Hd : (Rabs (IZR k - X) <= / 2 + 700 * u)%R) by (apply Rabs_le; lra).
      apply Rabs_le_inv in Hd.
      assert (Hkt : (IZR (k * t - 100 * l) = (IZR k - X) * IZR t)%R).
      { rewrite minus_IZR, !mult_IZR. change (IZR 100) with 100%R.
        rewrite Rmult_minus_distr_r, HXt. reflexivity. }
      assert (H1 : ((IZR k - X) * IZR t <= (/ 2 + 700 * u) * IZR t)%R)
        by (apply Rmult_le_compat_r; lra).
      assert (H2 : (- (/ 2 + 700 * u) * IZR t <= (IZR k - X) * IZR t)%R)
        by (apply Rmult_le_compat_r; lra).
      assert (Hut : (0 <= u * IZR t)%R) by (apply Rmult_le_pos; lra).
      assert (H3 : (1099511627776 * (1400 * (u * IZR t)) <= IZR t)%R).
      { replace (IZR t) with (4503599627370496 * (u * IZR t))%R at 2
          by (rewrite <- Rmult_assoc, (Rmult_comm _ u), Hu; ring).
        lra. }
      assert (Ha : 1099511627776 * (2 * (k * t - 100 * l)) <= (1099511627776 + 1) * t).
      { apply le_IZR. rewrite !mult_IZR, plus_IZR, Hkt. lra. }
      assert (Hb : - (1099511627776 * (2 * (k * t - 100 * l))) <= (1099511627776 + 1) * t).
      { apply le_IZR. rewrite opp_IZR, !mult_IZR, plus_IZR, Hkt. lra. }
      change (2 ^ 40) with 1099511627776. lia.
Qed.

End NumFacts.

(* ===================================================================== *)
(** * The progress callback *)
(* ===================================================================== *)

Module Progress.

(** The argument of [onProgress] for a computable event. *)
Lemma onProgressEvent_computable (l t : Z) :
  Api.onProgressEvent
    {| Xhr.lengthComputable := true; Xhr.ev_loaded := l; Xhr.ev_total := t |}
  = Some {| loaded := Num.of_Z l; total := Num.of_Z t;
            percentage :=
              Num.Math_round (Num.mul (Num.div (Num.of_Z l) (Num.of_Z t)) (Num.of_Z 100)) |}.
Proof. reflexivity. Qed.

(** No callback without a computable length. *)
Lemma onProgressEvent_not_computable (l t : Z) :
  Api.onProgressEvent
    {| Xhr.lengthComputable := false; Xhr.ev_loaded := l; Xhr.ev_total := t |}
  = None.
Proof. reflexivity. Qed.

(** An empty body gives 0 / 0, and the percentage is NaN. *)
Example percentage_of_empty_file :
  option_map percentage
    (Api.onProgressEvent
       {| Xhr.lengthComputable := true; Xhr.ev_loaded := 0; Xhr.ev_total := 0 |})
  = Some S754_nan.
Proof. reflexivity. Qed.

(** C4, as stated.  For 2 bytes of 3 the listener reports 67, where
    [floor (2 / 3 * 100)] is 66: the code rounds to the nearest integer. *)
Lemma two_of_three_reports_67 :
  ~ (forall ev : Xhr.ProgressEvent,
        Xhr.lengthComputable ev = true ->
        0 <= Xhr.ev_loaded ev <= Xhr.ev_total ev -> 0 < Xhr.ev_total ev ->
        exists p,
          Api.onProgressEvent ev = Some p
          /\ percentage p = Num.of_Z (100 * Xhr.ev_loaded ev / Xhr.ev_total ev)
          /\ 0 <= 100 * Xhr.ev_loaded ev / Xhr.ev_total ev <= 100).
Proof.
  intros H.
  destruct (H {| Xhr.lengthComputable := true; Xhr.ev_loaded := 2; Xhr.ev_total := 3 |}
              eq_refl ltac:(cbn; lia) ltac:(cbn; lia)) as (p & Hp & Hpct & _).
  rewrite onProgressEvent_computable in Hp. injection Hp as <-.
  vm_compute in Hpct. discriminate.
Qed.

(** C4, amended.  For every computable progress event with
    [0 <= loaded <= total], [0 < total] and [total] below [2^64] (the range
    of the event's fields), the listener calls [onProgress] with the integer
    [k] that [Math.round] makes of the computed quotient: [k] lies in
    [0, 100], it is within [1/2 + 2^-41] of [loaded / total * 100] (the
    second term covers the rounding of the conversions, of the division and
    of the multiplication), and so it is [floor (loaded / total * 100)] or
    that plus one. *)
Theorem reported_percentage_is_rounded (ev : Xhr.ProgressEvent) :
  Xhr.lengthComputable ev = true ->
  0 <= Xhr.ev_loaded ev <= Xhr.ev_total ev ->
  0 < Xhr.ev_total ev -> Xhr.ev_total ev < 2 ^ 64 ->
  exists k,
    Api.onProgressEvent ev
    = Some {| loaded := Num.of_Z (Xhr.ev_loaded ev);
              total := Num.of_Z (Xhr.ev_total ev);
              percentage := Num.of_Z k |}
    /\ 0 <= k <= 100
    /\ 100 * Xhr.ev_loaded ev / Xhr.ev_total ev <= k
       <= 100 * Xhr.ev_loaded ev / Xhr.ev_total ev + 1
    /\ 2 ^ 40 * Z.abs (2 * (k * Xhr.ev_total ev - 100 * Xhr.ev_loaded ev))
       <= (2 ^ 40 + 1) * Xhr.ev_total ev.
Proof.
  destruct ev as [c l t]. cbn [Xhr.lengthComputable Xhr.ev_loaded Xhr.ev_total].
  intros -> Hl Ht Ht64.
  destruct (NumFacts.percent_spec Hl Ht Ht64) as (k & Hk & Hrange & Hfloor & Hnear).
  exists k. rewrite onProgressEvent_computable, Hk. auto.
Qed.

Lemma reported_percentage_is_rounded_witness :
  exists k,
    Api.onProgressEvent
      {| Xhr.lengthComputable := true; Xhr.ev_loaded := 2; Xhr.ev_total := 3 |}
    = Some {| loaded := Num.of_Z 2; total := Num.of_Z 3; percentage := Num.of_Z k |}
    /\ 0 <= k <= 100
    /\ 100 * 2 / 3 <= k <= 100 * 2 / 3 + 1
    /\ 2 ^ 40 * Z.abs (2 * (k * 3 - 100 * 2)) <= (2 ^ 40 + 1) * 3.
Proof.
  apply (@reported_percentage_is_rounded
           {| Xhr.lengthComputable := true; Xhr.ev_loaded := 2; Xhr.ev_total := 3 |}).
  - reflexivity.
  - simpl; lia.
  - simpl; lia.
  - simpl; lia.
Defined.

Example reported_percentages :
  map (fun lt =>
         option_map percentage
           (Api.onProgressEvent
              {| Xhr.lengthComputable := true;
                 Xhr.ev_loaded := fst lt; Xhr.ev_total := snd lt |}))
      [(0, 7); (1, 2); (2, 3); (29, 200); (199, 200); (7, 7)]
  = map (fun k => Some (Num.of_Z k)) [0; 50; 67; 14; 100; 100].
Proof. vm_compute. reflexivity. Qed.

End Progress.

(* ===================================================================== *)
(** * Invariants of the component *)
(* ===================================================================== *)

Module ComponentInvariants.

Import FileUpload.

(** The selected file, when there is one, passed validation. *)
Definition selection_valid (p : Props) (s : State) : Prop :=
  forall file, selectedFile s = Some file -> validateFile p file = None.

(** What the status says about the other fields of [uploadStatus]. *)
Definition status_coherent (s : State) : Prop :=
  match status (uploadStatus s) with
  | Idle => error (uploadStatus s) = None /\ fileKey (uploadStatus s) = None
  | Uploading => True
  | Success => exists key, fileKey (uploadStatus s) = Some key
  | Error => exists message, error (uploadStatus s) = Some message
  end.

Lemma step_selection_valid (p : Props) (s : State) (o : Op) :
  selection_valid p s -> selection_valid p (step p s o).
Proof.
  intros Inv. destruct o as [file| |pr|r|]; cbn [step].
  - intros f. rewrite Orchestrator.handleFileSelect_selected.
    destruct (validateFile p file) eqn:E; [apply Inv|].
    intros H. injection H as <-. exact E.
  - unfold handleUpload_start. destruct (selectedFile s) as [chosen|] eqn:E; [|exact Inv].
    intros f H. cbn in H. apply Inv. now rewrite E.
  - exact Inv.
  - destruct r as [m|[k a]]; exact Inv.
  - intros f H. discriminate.
Qed.

Lemma step_status_coherent (p : Props) (s : State) (o : Op) :
  status_coherent s -> status_coherent (step p s o).
Proof.
  unfold status_coherent. intros Inv.
  destruct o as [file| |pr|r|]; cbn [step].
  - unfold handleFileSelect. rewrite validateFile_truthy.
    destruct (validateFile p file); cbn; eauto.
  - unfold handleUpload_start. destruct (selectedFile s); [exact I|exact Inv].
  - exact Inv.
  - destruct r as [m|[k a]]; cbn; eauto.
  - cbn. auto.
Qed.

(** X1.  Whatever operations reach the component, and in whatever order,
    the file it holds as selected is one that [validateFile] accepted: a
    rejected file never becomes the selection, and so is never uploaded. *)
Theorem selected_file_was_validated (p : Props) (ops : list Op) (file : File) :
  selectedFile (Run.run p initial ops) = Some file ->
  validateFile p file = None.
Proof.
  assert (H : forall s, selection_valid p s -> selection_valid p (Run.run p s ops)).
  { induction ops as [|o ops IH]; intros s Inv; [exact Inv|].
    cbn. apply IH. now apply step_selection_valid. }
  apply H. intros f Hf. discriminate.
Qed.

Lemma selected_file_was_validated_witness :
  validateFile defaultProps Orchestrator.goodFile = None.
Proof.
  apply (@selected_file_was_validated defaultProps
           [SelectFile Orchestrator.badFile; SelectFile Orchestrator.goodFile;
            SelectFile Orchestrator.badFile]
           Orchestrator.goodFile).
  reflexivity.
Defined.

(** X2.  After any sequence of operations, an Idle component shows neither
    an error nor a key, an Error component has the message it displays, and
    a Success component has the key of the uploaded file. *)
Theorem status_fields_coherent (p : Props) (ops : list Op) :
  status_coherent (Run.run p initial ops).
Proof.
  assert (H : forall s, status_coherent s -> status_coherent (Run.run p s ops)).
  { induction ops as [|o ops IH]; intros s Inv; [exact Inv|].
    cbn. apply IH. now apply step_status_coherent. }
  apply H. cbn. auto.
Qed.

(** The message of a failed validation can outlive it: a file dropped and
    rejected while an upload is in flight puts the component in Error, and
    when the upload then succeeds the component is in Success with the old
    [error] field. *)
Example stale_error_in_Success :
  let ops := [SelectFile Orchestrator.goodFile; StartUpload;
              SelectFile Orchestrator.badFile;
              UploadSettled (inr ("parcel.kml", "analysis-1-4fzyo82mv"))] in
  let s := Run.run defaultProps initial ops in
  all_offered defaultProps initial ops = true
  /\ status (uploadStatus s) = Success
  /\ error (uploadStatus s) = Some "Only .kml, .kmz files are allowed".
Proof. repeat split; reflexivity. Qed.

End ComponentInvariants.

(* ===================================================================== *)
(** * The validator and the credential request together *)
(* ===================================================================== *)

Module ValidatedRequest.

Import FileUpload.

Lemma toLowerCase_app (a b : string) :
  JS.toLowerCase (a ++ b) = JS.toLowerCase a ++ JS.toLowerCase b.
Proof. induction a as [|c a IH]; cbn; [reflexivity|now rewrite IH]. Qed.

Lemma array_includes_In (l : list string) (x : string) :
  JS.array_includes l x = true <-> In x l.
Proof.
  unfold JS.array_includes. rewrite existsb_exists. split.
  - intros (y & Hy & E). apply String.eqb_eq in E. now subst.
  - intros H. exists x. split; [exact H|apply String.eqb_refl].
Qed.

(** What acceptance by [validateFile] means. *)
Lemma validateFile_None (p : Props) (file : File) :
  validateFile p file = None <->
  size file <= maxFileSize p * 1024 * 1024
  /\ In (fileExtension (name file)) (acceptedTypes p).
Proof.
  unfold validateFile.
  destruct (Z.ltb_spec (maxFileSize p * 1024 * 1024) (size file)) as [H|H].
  - split; [discriminate|]. intros [H' _]. lia.
  - rewrite <- array_includes_In.
    destruct (JS.array_includes (acceptedTypes p) (fileExtension (name file)));
      cbn; split; intros; try discriminate; auto.
    destruct H0. discriminate.
Qed.

(** X3.  A file that [validateFile] accepted under a limit of at most 50 MB
    and under accepted types among [.kml] and [.kmz], and whose name has a
    dot, passes both guards of [requestPresignedUrl] whatever its MIME type
    is: the request for credentials is issued. *)
Theorem validated_file_is_requested (p : Props) (file : File)
    (fetch : Api.Request -> Api.FetchResult) (now_key now_fields : Z) :
  maxFileSize p <= 50 ->
  (forall ext, In ext (acceptedTypes p) -> ext = ".kml" \/ ext = ".kmz") ->
  validateFile p file = None ->
  JS.occurs "." (name file) = true ->
  fst (Api.requestPresignedUrl fetch now_key now_fields
         (name file) (type file) (size file))
  = [Credentials.requestFor (name file)].
Proof.
  intros Hmax Hexts Hvalid Hdot.
  apply validateFile_None in Hvalid as [Hsize Hext].
  rewrite Credentials.requestPresignedUrl_cases.
  assert (E1 : (Api.sizeLimit <? size file) = false)
    by (apply Z.ltb_ge; unfold Api.sizeLimit; lia).
  rewrite E1.
  assert (E2 : Api.typeRejected (name file) (type file) = false).
  { apply Credentials.typeRejected_false. right. right.
    destruct (pop_split "." (name file)) as (seg & Hpop & Hocc & Hs).
    destruct Hs as [Hs|[pre Hs]].
    - rewrite Hs, Hocc in Hdot. discriminate.
    - assert (Hfe : fileExtension (name file) = String "." (JS.toLowerCase seg))
        by (rewrite Hs; now apply fileExtension_dotted).
      rewrite Hfe in Hext. apply Hexts in Hext.
      rewrite Hs, toLowerCase_app. cbn [JS.toLowerCase].
      change (JS.lower_ascii ".") with "."%char.
      destruct Hext as [Hext|Hext]; rewrite Hext; [left|right];
        apply endsWith_spec; now exists (JS.toLowerCase pre). }
  now rewrite E2.
Qed.

Lemma validated_file_is_requested_witness :
  fst (Api.requestPresignedUrl (fun _ => Api.fetch_rejects "offline") 0 0
         "Survey.Plot.KML" "application/octet-stream" 4096)
  = [Credentials.requestFor "Survey.Plot.KML"].
Proof.
  apply (@validated_file_is_requested defaultProps
           {| name := "Survey.Plot.KML"; type := "application/octet-stream";
              size := 4096 |}
           (fun _ => Api.fetch_rejects "offline") 0 0).
  - simpl; lia.
  - simpl. intros ext [H|[H|H]]; auto. contradiction.
  - reflexivity.
  - reflexivity.
Defined.

(** With a larger limit in the props the two checks disagree: the
    validator accepts a 60 MiB file that the request then refuses. *)
Example larger_limit_is_refused_later :
  let p := {| maxFileSize := 100; acceptedTypes := [".kml"; ".kmz"] |} in
  let file := {| name := "big.kml"; type := Api.kmlType; size := 60 * 1024 * 1024 |} in
  validateFile p file = None
  /\ Api.requestPresignedUrl (fun _ => Api.fetch_rejects "offline") 0 0
       (name file) (type file) (size file)
     = ([], inl "File size exceeds 50MB limit").
Proof. split; reflexivity. Qed.

End ValidatedRequest.

(* ===================================================================== *)
(** * What [requestPresignedUrl] hands back *)
(* ===================================================================== *)

Module Issued.

Import Api.

Lemma or_else_nonempty (v : option string) (d : string) :
  d <> "" -> JS.or_else v d <> "".
Proof. intros Hd. destruct v as [[|c s]|]; cbn; auto; discriminate. Qed.

Lemma number_or_nonzero (v : option Z) (d : Z) : d <> 0 -> number_or v d <> 0.
Proof. intros Hd. destruct v as [[|n|n]|]; cbn; auto; discriminate. Qed.

Lemma truthy_or_else (v : option string) (d : string) :
  JS.truthy v = true -> JS.or_else v d <> "" /\ v = Some (JS.or_else v d).
Proof. destruct v as [[|c s]|]; cbn; try discriminate. intros _. split; [discriminate|reflexivity]. Qed.

(** X4.  When [requestPresignedUrl] resolves, exactly one request was
    issued, the input had passed both guards, and the credentials are
    complete: the URL and the key are not empty and the expiry is not zero,
    whatever fields the answer left out. *)
Theorem resolved_credentials_are_complete (fetch : Request -> FetchResult)
    (now_key now_fields : Z) (fileName fileType : string) (fileSize : Z)
    (c : PresignedUrlResponse) :
  snd (requestPresignedUrl fetch now_key now_fields fileName fileType fileSize) = inr c ->
  fst (requestPresignedUrl fetch now_key now_fields fileName fileType fileSize)
  = [Credentials.requestFor fileName]
  /\ fileSize <= 50 * 1024 * 1024
  /\ typeRejected fileName fileType = false
  /\ presignedUrl c <> ""
  /\ pr_fileKey c <> ""
  /\ expiresIn c <> 0.
Proof.
  rewrite Credentials.requestPresignedUrl_cases.
  destruct (Z.ltb_spec sizeLimit fileSize) as [Hs|Hs]; [discriminate|].
  destruct (typeRejected fileName fileType) eqn:Et; [discriminate|].
  cbn [fst snd]. intros H.
  split; [reflexivity|]. split; [exact Hs|]. split; [reflexivity|].
  destruct (fetch (Credentials.requestFor fileName)) as [m|st text [m|m|data]];
    cbn in H.
  - destruct (JS.includes m "CORS" || JS.includes m "Access-Control-Allow-Origin");
      discriminate.
  - destruct (negb (ok st)); cbn in H;
      [|destruct (JS.includes m "CORS" || JS.includes m "Access-Control-Allow-Origin")];
      try discriminate.
    destruct (JS.includes _ "CORS" || JS.includes _ "Access-Control-Allow-Origin");
      discriminate.
  - destruct (negb (ok st)); cbn in H;
      [|destruct (JS.includes m "CORS" || JS.includes m "Access-Control-Allow-Origin")];
      try discriminate.
    destruct (JS.includes _ "CORS" || JS.includes _ "Access-Control-Allow-Origin");
      discriminate.
  - destruct (negb (ok st)); cbn in H.
    + destruct (JS.includes _ "CORS" || JS.includes _ "Access-Control-Allow-Origin");
        discriminate.
    + destruct (JS.truthy (d_presignedUrl data)) eqn:Eu; cbn in H; [|discriminate].
      injection H as <-. cbn [presignedUrl pr_fileKey expiresIn].
      split; [now apply truthy_or_else|].
      split; [apply or_else_nonempty; discriminate|].
      apply number_or_nonzero. discriminate.
Qed.

Definition fullAnswer : ApiData :=
  {| d_presignedUrl := Some "https://store/bucket/input_kml_files/parcel.kml?sig=abc";
     d_fileKey := None; d_expiresIn := Some 0; d_fields := None |}.

Example defaults_fill_the_gaps :
  snd (requestPresignedUrl (fun _ => fetch_response 200 "OK" (json fullAnswer))
         17 18 "parcel.kml" kmlType 2048)
  = inr {| presignedUrl := "https://store/bucket/input_kml_files/parcel.kml?sig=abc";
           pr_fileKey := "kml-uploads/17-parcel.kml";
           expiresIn := 3600;
           fields := [("Content-Type", kmlType);
                      ("x-amz-meta-original-name", "parcel.kml");
                      ("x-amz-meta-upload-timestamp", "18")] |}.
Proof. reflexivity. Qed.

Lemma resolved_credentials_are_complete_witness :
  fst (requestPresignedUrl (fun _ => fetch_response 200 "OK" (json fullAnswer))
         17 18 "parcel.kml" kmlType 2048)
  = [Credentials.requestFor "parcel.kml"]
  /\ 2048 <= 50 * 1024 * 1024
  /\ typeRejected "parcel.kml" kmlType = false
  /\ "https://store/bucket/input_kml_files/parcel.kml?sig=abc" <> ""
  /\ "kml-uploads/17-parcel.kml" <> ""
  /\ 3600 <> 0.
Proof.
  apply (@resolved_credentials_are_complete
           (fun _ => fetch_response 200 "OK" (json fullAnswer))
           17 18 "parcel.kml" kmlType 2048
           {| presignedUrl := "https://store/bucket/input_kml_files/parcel.kml?sig=abc";
              pr_fileKey := "kml-uploads/17-parcel.kml";
              expiresIn := 3600;
              fields := [("Content-Type", kmlType);
                         ("x-amz-meta-original-name", "parcel.kml");
                         ("x-amz-meta-upload-timestamp", "18")] |}).
  reflexivity.
Defined.

(** X5.  An answer with a status outside 200-299 always rejects the
    promise, and its body is not looked at: the message names the status
    and the status text, unless that message mentions CORS, in which case
    the fixed CORS message replaces it. *)
Theorem failed_status_is_reported (fetch : Request -> FetchResult)
    (now_key now_fields : Z) (fileName fileType : string) (fileSize : Z)
    (st : Z) (statusText : string) (body : Parsed ApiData) :
  fileSize <= 50 * 1024 * 1024 ->
  typeRejected fileName fileType = false ->
  fetch (Credentials.requestFor fileName) = fetch_response st statusText body ->
  ~ (200 <= st <= 299) ->
  let cause := "Failed to get presigned URL: " ++ JS.show st ++ " " ++ statusText in
  snd (requestPresignedUrl fetch now_key now_fields fileName fileType fileSize)
  = inl (if JS.includes cause "CORS" || JS.includes cause "Access-Control-Allow-Origin"
         then corsMessage
         else "Failed to request presigned URL: " ++ cause).
Proof.
  intros Hs Ht Hf Hst. cbv zeta.
  rewrite Credentials.requestPresignedUrl_cases.
  apply Z.ltb_ge in Hs. unfold sizeLimit. rewrite Hs, Ht. cbn [snd].
  rewrite Hf. unfold readResponse.
  assert (E : ok st = false).
  { unfold ok. apply andb_false_iff.
    destruct (Z.leb_spec 200 st); [right|left; reflexivity].
    apply Z.leb_gt. lia. }
  rewrite E. cbn [negb rethrow].
  destruct (JS.includes _ "CORS" || JS.includes _ "Access-Control-Allow-Origin");
    reflexivity.
Qed.

Lemma failed_status_is_reported_witness :
  snd (requestPresignedUrl
         (fun _ => fetch_response 403 "Forbidden" (json Credentials.bareAnswer))
         17 18 "parcel.kml" kmlType 2048)
  = inl "Failed to request presigned URL: Failed to get presigned URL: 403 Forbidden".
Proof.
  apply (@failed_status_is_reported
           (fun _ => fetch_response 403 "Forbidden" (json Credentials.bareAnswer))
           17 18 "parcel.kml" kmlType 2048 403 "Forbidden"
           (json Credentials.bareAnswer)).
  - lia.
  - reflexivity.
  - reflexivity.
  - lia.
Defined.

Example status_text_mentioning_CORS :
  snd (requestPresignedUrl
         (fun _ => fetch_response 403 "CORS policy" (not_json "no body"))
         17 18 "parcel.kml" kmlType 2048)
  = inl corsMessage.
Proof. reflexivity. Qed.

End Issued.

(* ===================================================================== *)
(** * The replies of the two routes *)
(* ===================================================================== *)

Module Replies.

Import Routes.

Lemma ok_range (st : Z) : Api.ok st = true <-> 200 <= st <= 299.
Proof.
  unfold Api.ok. rewrite andb_true_iff, !Z.leb_le. tauto.
Qed.


(** The statuses the routes write themselves are accepted. *)
Lemma own_statuses_accepted (body : Body) (headers : list (string * string)) :
  NextResponse_json body 200 headers = Some (jsonReply body 200 headers)
  /\ NextResponse_json body 400 headers = Some (jsonReply body 400 headers)
  /\ NextResponse_json body 500 headers = Some (jsonReply body 500 headers).
Proof. repeat split; reflexivity. Qed.


(** X7.  The upload relay replies 200 exactly when the form holds a file
    and a non-empty URL and the store answers the PUT with a status in
    200-299.  Its other replies are 400 and 500 only: the store's own status
    is not passed on.  Every reply of the relay has the JSON content type as
    its only header, so none carries a CORS header; and the store is written
    to at most once, at the URL of the form. *)
Theorem uploadProxy_reply_shape (form : string + (option File * option string))
    (store : string -> Store) (now : Z) :
  let run := uploadProxy_POST form store now in
  (reply_status (snd run) = 200
   <-> exists file url st,
         form = inr (Some file, Some url) /\ url <> ""
         /\ store url = store_response st /\ 200 <= st <= 299)
  /\ (reply_status (snd run) = 200 \/ reply_status (snd run) = 400
      \/ reply_status (snd run) = 500)
  /\ reply_headers (snd run) = [("content-type", "application/json")]
  /\ (fst run = []
      \/ exists file url, form = inr (Some file, Some url) /\ fst run = [url]).
Proof.
  cbv zeta. unfold uploadProxy_POST.
  destruct form as [e|[[file|] [[|c u]|]]]; cbn [fst snd];
    try (split; [split; [discriminate|intros (f & x & st & H & Hx & _);
                                      try discriminate; try (injection H as _ <-; contradiction)]
                |split; [cbn; auto|split; [reflexivity|left; reflexivity]]]).
  split; [|split; [|split]].
  - destruct (store (String c u)) as [m|st] eqn:Es.
    + split; [discriminate|].
      intros (f & x & st & H & _ & Hst & _). injection H as _ <-.
      rewrite Es in Hst. discriminate.
    + destruct (Api.ok st) eqn:E; cbn [negb].
      * split; [|reflexivity]. intros _. exists file, (String c u), st.
        split; [reflexivity|]. split; [discriminate|].
        split; [exact Es|now apply ok_range].
      * split; [discriminate|].
        intros (f & x & st' & H & _ & Hst & Hr). injection H as _ <-.
        rewrite Es in Hst. injection Hst as <-.
        apply ok_range in Hr. congruence.
  - destruct (store (String c u)) as [m|st]; [cbn; auto|].
    destruct (Api.ok st); cbn; auto.
  - destruct (store (String c u)) as [m|st]; [reflexivity|].
    destruct (Api.ok st); reflexivity.
  - right. now exists file, (String c u).
Qed.

Example relay_hides_the_status :
  snd (uploadProxy_POST
         (inr (Some Orchestrator.goodFile, Some "https://store/bucket/parcel.kml?sig=abc"))
         (fun _ => store_response 403) 17)
  = {| reply_status := 500; reply_body := error_body "Upload failed";
       reply_headers := [("content-type", "application/json")] |}.
Proof. reflexivity. Qed.

End Replies.

(* ===================================================================== *)
(** * The client behind the credential route *)
(* ===================================================================== *)

(** [requestPresignedUrl] fetches [/api/presigned-url], which the
    credential route serves: the body the client stringifies is the body
    the route parses, and the JSON the route replies with is the JSON the
    client reads. *)
Module BehindProxy.

Import Routes.

(** A reply as [fetch] delivers it.  [statusText] is the reason phrase the
    transport shows for a status. *)
Definition delivered (statusText : Z -> string) (reply : Reply) : Api.FetchResult :=
  Api.fetch_response (reply_status reply) (statusText (reply_status reply))
    (json match reply_body reply with
          | credentials_body c =>
              {| Api.d_presignedUrl := Some (presignedUrl c);
                 Api.d_fileKey := Some (pr_fileKey c);
                 Api.d_expiresIn := Some (expiresIn c);
                 Api.d_fields := Some (fields c) |}
          | _ =>
              {| Api.d_presignedUrl := None; Api.d_fileKey := None;
                 Api.d_expiresIn := None; Api.d_fields := None |}
          end).

(** The route answering the client's request. *)
Definition route (upstream : string -> Upstream) (iso : string) (now : Z)
    (request : Api.Request) : Reply :=
  snd (presignedUrl_POST (inr (Some (Api.body_fileName request))) upstream iso now).

Definition fetchRoute (statusText : Z -> string) (upstream : string -> Upstream)
    (iso : string) (now : Z) (request : Api.Request) : Api.FetchResult :=
  delivered statusText (route upstream iso now request).

(** X8.  For an input that passes the client's guards, the route forwards
    the prefixed file name to the Lambda function (the 400 reply cannot
    occur), and the client resolves exactly when the route replies 200,
    with the very credentials of the reply: the client's own defaults and
    its missing-URL error are never used behind this route. *)
Theorem client_returns_route_credentials (statusText : Z -> string)
    (upstream : string -> Upstream) (iso : string) (now now_key now_fields : Z)
    (fileName fileType : string) (fileSize : Z) :
  fileSize <= 50 * 1024 * 1024 ->
  Api.typeRejected fileName fileType = false ->
  let forwarded := "input_kml_files/" ++ fileName in
  let served := presignedUrl_POST (inr (Some forwarded)) upstream iso now in
  let result :=
    snd (Api.requestPresignedUrl (fetchRoute statusText upstream iso now)
           now_key now_fields fileName fileType fileSize) in
  fst served = [forwarded]
  /\ match reply_body (snd served) with
     | credentials_body c => result = inr c
     | _ =>
         exists message,
           result = inl message
           /\ message <> "Failed to request presigned URL: " ++ Api.missingUrlMessage
     end.
Proof.
  intros Hs Ht. cbv zeta.
  split; [reflexivity|].
  rewrite Credentials.requestPresignedUrl_cases.
  apply Z.ltb_ge in Hs. unfold Api.sizeLimit. rewrite Hs, Ht. cbn [snd].
  unfold fetchRoute, route, delivered, Credentials.requestFor.
  cbn [Api.body_fileName].
  unfold presignedUrl_POST.
  change (JS.truthy (Some ("input_kml_files/" ++ fileName))) with true.
  change (JS.or_else (Some ("input_kml_files/" ++ fileName)) "")
    with ("input_kml_files/" ++ fileName).
  cbn [negb snd].
  assert (Hfail : forall (code : Z) (text : string),
             Api.ok code = false ->
             exists message,
               Api.rethrow
                 (Api.readResponse now_key now_fields fileName fileType
                    (Api.fetch_response code text
                       (json {| Api.d_presignedUrl := None; Api.d_fileKey := None;
                                Api.d_expiresIn := None; Api.d_fields := None |})))
               = inl message
               /\ message <> "Failed to request presigned URL: " ++ Api.missingUrlMessage).
  { intros code text Hok. cbn [Api.readResponse]. rewrite Hok. cbn [negb Api.rethrow].
    destruct (JS.includes _ "CORS" || JS.includes _ "Access-Control-Allow-Origin");
      eexists; (split; [reflexivity|discriminate]). }
  destruct (upstream ("input_kml_files/" ++ fileName)) as [m|st text body].
  - cbn [jsonReply reply_body reply_status]. now apply Hfail.
  - destruct (Api.ok st) eqn:E; cbn [negb];
      [|unfold NextResponse_json; destruct (refused st);
        cbn [jsonReply reply_body reply_status]; now apply Hfail].
    destruct body as [m|m|data];
      try (cbn [jsonReply reply_body reply_status]; now apply Hfail).
    destruct (JS.truthy (uploadUrl data)) eqn:Eu;
      cbn [negb jsonReply reply_body reply_status].
    + cbn [Api.readResponse]. change (Api.ok 200) with true. cbn [negb].
      cbn [Api.d_presignedUrl Api.d_fileKey Api.d_expiresIn Api.d_fields
           presignedUrl pr_fileKey expiresIn fields].
      destruct (uploadUrl data) as [[|c u]|]; try discriminate.
      cbn [JS.or_else JS.truthy negb Api.rethrow]. f_equal. f_equal.
      * destruct (l_fileKey data) as [[|k0 k]|]; reflexivity.
      * destruct (l_expiresIn data) as [[|n|n]|]; reflexivity.
    + cbn [Api.readResponse]. change (Api.ok 200) with true. cbn [negb].
      reflexivity.
Qed.

Definition lambdaAnswer : LambdaData :=
  {| uploadUrl := Some "https://bucket.s3.ap-south-1.amazonaws.com/input_kml_files/parcel.kml?X-Amz-Signature=abc";
     l_fileKey := None; l_expiresIn := None; l_fields := None |}.

Lemma client_returns_route_credentials_witness :
  let forwarded := "input_kml_files/" ++ "parcel.kml" in
  let served :=
    presignedUrl_POST (inr (Some forwarded))
      (fun _ => upstream_response 200 "OK" (json lambdaAnswer))
      "2024-05-06T07:08:09.123Z" 1714979289123 in
  let result :=
    snd (Api.requestPresignedUrl
           (fetchRoute (fun _ => "") (fun _ => upstream_response 200 "OK" (json lambdaAnswer))
              "2024-05-06T07:08:09.123Z" 1714979289123)
           17 18 "parcel.kml" Api.kmlType 2048) in
  fst served = [forwarded]
  /\ match reply_body (snd served) with
     | credentials_body c => result = inr c
     | _ =>
         exists message,
           result = inl message
           /\ message <> "Failed to request presigned URL: " ++ Api.missingUrlMessage
     end.
Proof.
  apply (@client_returns_route_credentials (fun _ => "")
           (fun _ => upstream_response 200 "OK" (json lambdaAnswer))
           "2024-05-06T07:08:09.123Z" 1714979289123 17 18
           "parcel.kml" Api.kmlType 2048).
  - lia.
  - reflexivity.
Defined.

Example through_the_route :
  snd (Api.requestPresignedUrl
         (fetchRoute (fun _ => "") (fun _ => upstream_response 200 "OK" (json lambdaAnswer))
            "2024-05-06T07:08:09.123Z" 1714979289123)
         17 18 "parcel.kml" Api.kmlType 2048)
  = inr {| presignedUrl :=
             "https://bucket.s3.ap-south-1.amazonaws.com/input_kml_files/parcel.kml?X-Amz-Signature=abc";
           pr_fileKey := "input_kml_files/parcel.kml";
           expiresIn := 3600;
           fields := [("x-amz-meta-original-name", "parcel.kml");
                      ("x-amz-meta-upload-timestamp", "1714979289123")] |}.
Proof. reflexivity. Qed.

End BehindProxy.

(* ===================================================================== *)
(** * The ends of the progress bar *)
(* ===================================================================== *)

Module ProgressEnds.

(** Two small integers that become the same Number are the same. *)
Lemma of_Z_inj_small (a b : Z) :
  0 <= a < 2 ^ 53 -> 0 <= b < 2 ^ 53 -> Num.of_Z a = Num.of_Z b -> a = b.
Proof.
  intros Ha Hb H.
  destruct (Z.eq_dec a 0) as [->|Na]; destruct (Z.eq_dec b 0) as [->|Nb];
    [reflexivity| | |].
  - destruct (@NumFacts.of_Z_exact b ltac:(lia)) as (m & e & E & _).
    rewrite E in H. discriminate.
  - destruct (@NumFacts.of_Z_exact a ltac:(lia)) as (m & e & E & _).
    rewrite E in H. discriminate.
  - destruct (@NumFacts.of_Z_exact a ltac:(lia)) as (m & e & E & _ & He & Hm).
    destruct (@NumFacts.of_Z_exact b ltac:(lia)) as (m' & e' & E' & _ & He' & Hm').
    rewrite E, E' in H. injection H as -> ->.
    assert (0 < 2 ^ (- e')) by (apply Z.pow_pos_nonneg; lia). nia.
Qed.

(** X9.  A progress event of a transfer that is complete ([loaded = total])
    reports 100, and one with nothing sent reports 0.  Conversely 100 is
    reported only from 99.5 percent on (up to the rounding error), so the
    bar can show 100 before the transfer is over. *)
Theorem ends_of_the_bar (l t : Z) :
  0 <= l <= t -> 0 < t -> t < 2 ^ 64 ->
  let reported :=
    option_map percentage
      (Api.onProgressEvent
         {| Xhr.lengthComputable := true; Xhr.ev_loaded := l; Xhr.ev_total := t |}) in
  (l = t -> reported = Some (Num.of_Z 100))
  /\ (l = 0 -> reported = Some (Num.of_Z 0))
  /\ (reported = Some (Num.of_Z 100) ->
      2 ^ 40 * (200 * (t - l)) <= (2 ^ 40 + 1) * t).
Proof.
  intros Hl Ht Ht64. cbv zeta.
  rewrite Progress.onProgressEvent_computable. cbn [option_map percentage].
  destruct (NumFacts.percent_spec Hl Ht Ht64) as (k & Hk & Hrange & Hfloor & Hnear).
  rewrite Hk. split; [|split].
  - intros ->. replace (100 * t / t) with 100 in Hfloor
      by (symmetry; apply Z.div_mul; lia).
    do 2 f_equal. lia.
  - intros ->. rewrite Z.mul_0_r, Z.div_0_l in Hfloor by lia.
    change (2 ^ 40) with 1099511627776 in Hnear.
    do 2 f_equal. nia.
  - intros H.
    assert (H' : Num.of_Z k = Num.of_Z 100) by (now injection H).
    apply of_Z_inj_small in H'; [|change (2 ^ 53) with 9007199254740992; lia ..].
    subst k. change (2 ^ 40) with 1099511627776 in *. lia.
Qed.

Lemma ends_of_the_bar_witness :
  let reported :=
    option_map percentage
      (Api.onProgressEvent
         {| Xhr.lengthComputable := true; Xhr.ev_loaded := 199; Xhr.ev_total := 200 |}) in
  (199 = 200 -> reported = Some (Num.of_Z 100))
  /\ (199 = 0 -> reported = Some (Num.of_Z 0))
  /\ (reported = Some (Num.of_Z 100) ->
      2 ^ 40 * (200 * (200 - 199)) <= (2 ^ 40 + 1) * 200).
Proof.
  apply (@ends_of_the_bar 199 200).
  - lia.
  - lia.
  - simpl; lia.
Defined.

End ProgressEnds.

(* ===================================================================== *)
(** * The key of an uploaded file *)
(* ===================================================================== *)

Module FileKey.

Lemma occurs_prefix (c : ascii) (a b : string) :
  JS.occurs c (a ++ b) = false -> JS.occurs c a = false.
Proof.
  rewrite occurs_app. intros H. now apply orb_false_iff in H as [H _].
Qed.

Lemma append_nil_r (a : string) : a ++ "" = a.
Proof. induction a as [|c a IH]; cbn; [reflexivity|now rewrite IH]. Qed.

Lemma string_of_uint_no_slash (d : Decimal.uint) :
  JS.occurs "/" (NilEmpty.string_of_uint d) = false.
Proof. induction d; cbn; auto. Qed.

(** A printed integer holds digits and at most a sign. *)
Lemma show_no_slash (z : Z) : JS.occurs "/" (JS.show z) = false.
Proof.
  unfold JS.show, NilZero.string_of_int, NilZero.string_of_uint.
  destruct (Z.to_int z) as [d|d]; destruct d; cbn;
    try reflexivity; apply string_of_uint_no_slash.
Qed.

(** X10.  The key [uploadFileToS3] resolves with is never empty.  It is
    either a piece of the URL, and then holds neither a slash nor a question
    mark, or the synthesised [input_kml_files/{now}-{name}] (when the URL
    ends with a slash or has its question mark right after the last slash). *)
Theorem extractFileKey_shape (now : Z) (fileName presignedUrl : string) :
  let key := Api.extractFileKey now fileName presignedUrl in
  key <> ""
  /\ ((JS.occurs "/" key = false /\ JS.occurs "?" key = false
       /\ exists before after, presignedUrl = before ++ key ++ after)
      \/ key = "input_kml_files/" ++ JS.show now ++ "-" ++ fileName).
Proof.
  cbv zeta.
  destruct (Transfer.extractFileKey_spec now fileName presignedUrl)
    as (segment & key & [Hs1 Hs2] & [Hk1 Hk2] & ->).
  destruct key as [|c k]; cbn [String.eqb].
  - split; [discriminate|]. now right.
  - split; [discriminate|]. left.
    assert (Hslash : JS.occurs "/" (String c k) = false).
    { destruct Hk2 as [<-|[rest Hk2]]; [assumption|].
      rewrite Hk2 in Hs1. now apply occurs_prefix in Hs1. }
    split; [exact Hslash|]. split; [exact Hk1|].
    destruct Hs2 as [Hs2|[pre Hs2]]; destruct Hk2 as [Hk2|[rest Hk2]]; subst.
    + exists "", "". cbn. now rewrite append_nil_r.
    + exists "", (String "?" rest). reflexivity.
    + exists (pre ++ "/"), "". now rewrite append_assoc, append_nil_r.
    + exists (pre ++ "/"), (String "?" rest). now rewrite append_assoc.
Qed.

End FileKey.

(* ===================================================================== *)
(** * The demo page: app/kml-analysis-demo/page.tsx *)
(* ===================================================================== *)

(** The page owns the list of analyses, the processing flag and the index of
    the carousel.  Its handlers are state transformers; the readings of the
    clock and the objects built from [Math.random] are inputs. *)
Module Demo.

Record BoundingBox := {
  north : Num.JSNumber;
  south : Num.JSNumber;
  east : Num.JSNumber;
  west : Num.JSNumber
}.

Record Statistics := {
  points : Z;
  lines : Z;
  polygons : Z
}.

Record Results := {
  totalFeatures : Z;
  geometryTypes : list string;
  boundingBox : BoundingBox;
  statistics : Statistics
}.

Record AnalysisResult := {
  id : string;
  fileName : string;
  fileKey : string;
  status : string;
  progress : Z;
  results : option Results;
  createdAt : string
}.

Inductive Slide :=
| MapSlide (slide_id : Z) (title description : string)
| ImageSlide (slide_id : Z) (src alt title : string).

Definition carouselImages : list Slide :=
  [ MapSlide 1 "Google Maps KML Viewer"
      "Interactive KML visualization with Google Maps API";
    ImageSlide 2 "https://placekitten.com/800/400?image=2"
      "KML File Processing" "KML File Processing";
    ImageSlide 3 "https://placekitten.com/800/400?image=3"
      "Map Visualization" "Map Visualization";
    ImageSlide 4 "https://placekitten.com/800/400?image=4"
      "Data Analytics Dashboard" "Data Analytics Dashboard";
    ImageSlide 5 "https://placekitten.com/800/400?image=5"
      "Geographic Information System" "Geographic Information System" ].

Record State := {
  analysisResults : list AnalysisResult;
  isProcessing : bool;
  currentImageIndex : Z
}.

Definition initial : State :=
  {| analysisResults := []; isProcessing := false; currentImageIndex := 0 |}.

(** The synchronous part of [handleUploadComplete]: the new entry goes to the
    front of the list and the flag is raised.  [iso] is
    [new Date().toISOString()]. *)
Definition handleUploadComplete (iso fileKey analysisId : string) (s : State)
  : State :=
  let fileName :=
    JS.or_else (JS.pop (JS.split "/" fileKey)) "Unknown file" in
  let newAnalysis :=
    {| id := analysisId; fileName := fileName; fileKey := fileKey;
       status := "processing"; progress := 0; results := None;
       createdAt := iso |} in
  {| analysisResults := newAnalysis :: analysisResults s;
     isProcessing := true;
     currentImageIndex := currentImageIndex s |}.

(** What the mock status promise of one tick resolves with. *)
Record MockStatus := {
  m_status : string;
  m_progress : Z
}.

(** The [prev.map(...)] of one tick.  [draw n] is the results object built
    from the random draws made for the entry at position [n]. *)
Fixpoint update (analysisId : string) (mock : MockStatus)
  (draw : nat -> Results) (n : nat) (prev : list AnalysisResult)
  : list AnalysisResult :=
  match prev with
  | [] => []
  | result :: rest =>
      (if String.eqb (id result) analysisId then
         {| id := id result; fileName := fileName result;
            fileKey := fileKey result;
            status := m_status mock;
            progress := m_progress mock;
            results := if String.eqb (m_status mock) "completed"
                       then Some (draw n) else results result;
            createdAt := createdAt result |}
       else result) :: update analysisId mock draw (S n) rest
  end.

(** One tick of the progress interval of the analysis [analysisId]. *)
Definition tick (analysisId : string) (mock : MockStatus)
  (draw : nat -> Results) (s : State) : State :=
  {| analysisResults := update analysisId mock draw 0 (analysisResults s);
     isProcessing := if String.eqb (m_status mock) "completed" then false
                     else isProcessing s;
     currentImageIndex := currentImageIndex s |}.

(** The timeout that fires 30 s after the upload. *)
Definition cleanup (s : State) : State :=
  {| analysisResults := analysisResults s;
     isProcessing := false;
     currentImageIndex := currentImageIndex s |}.

Definition length_Z : Z := Z.of_nat (List.length carouselImages).

(** JavaScript's [%] takes the sign of the dividend: [Z.rem]. *)
Definition nextImage (s : State) : State :=
  {| analysisResults := analysisResults s;
     isProcessing := isProcessing s;
     currentImageIndex := Z.rem (currentImageIndex s + 1) length_Z |}.

Definition prevImage (s : State) : State :=
  {| analysisResults := analysisResults s;
     isProcessing := isProcessing s;
     currentImageIndex :=
       Z.rem (currentImageIndex s - 1 + length_Z) length_Z |}.

Definition goToImage (index : Z) (s : State) : State :=
  {| analysisResults := analysisResults s;
     isProcessing := isProcessing s;
     currentImageIndex := index |}.

(** What can happen to the page. *)
Inductive Op :=
| UploadComplete (iso fileKey analysisId : string)
| Tick (analysisId : string) (mock : MockStatus) (draw : nat -> Results)
| Cleanup
| NextImage
| PrevImage
| GoToImage (index : Z).

Definition step (s : State) (op : Op) : State :=
  match op with
  | UploadComplete iso fileKey analysisId =>
      handleUploadComplete iso fileKey analysisId s
  | Tick analysisId mock draw => tick analysisId mock draw s
  | Cleanup => cleanup s
  | NextImage => nextImage s
  | PrevImage => prevImage s
  | GoToImage index => goToImage index s
  end.

Definition run (ops : list Op) : State := fold_left step ops initial.

(** The indicator buttons are rendered from [carouselImages.map], so the
    index they pass is a position of the list. *)
Definition rendered (op : Op) : Prop :=
  match op with
  | GoToImage index => 0 <= index < length_Z
  | _ => True
  end.

(** The slide the render looks up. *)
Definition currentSlide (s : State) : option Slide :=
  if currentImageIndex s <? 0 then None
  else nth_error carouselImages (Z.to_nat (currentImageIndex s)).

Definition isUploadComplete (op : Op) : bool :=
  match op with
  | UploadComplete _ _ _ => true
  | _ => false
  end.

(** How one tick relates an entry to what it becomes. *)
Definition ticked (analysisId : string) (mock : MockStatus)
  (old new : AnalysisResult) : Prop :=
  id new = id old /\ fileName new = fileName old
  /\ fileKey new = fileKey old /\ createdAt new = createdAt old
  /\ (id old <> analysisId -> new = old)
  /\ (id old = analysisId ->
      status new = m_status mock /\ progress new = m_progress mock
      /\ (m_status mock = "completed" -> results new <> None)
      /\ (m_status mock <> "completed" -> results new = results old)).

Lemma update_ticked (analysisId : string) (mock : MockStatus)
  (draw : nat -> Results) (prev : list AnalysisResult) (n : nat) :
  Forall2 (ticked analysisId mock) prev (update analysisId mock draw n prev).
Proof.
  revert n. induction prev as [|r rest IH]; intros n; cbn [update].
  - constructor.
  - constructor; [|apply IH].
    unfold ticked. destruct (String.eqb (id r) analysisId) eqn:E.
    + apply String.eqb_eq in E. cbn.
      split; [reflexivity|]. split; [reflexivity|]. split; [reflexivity|].
      split; [reflexivity|]. split; [intros Hne; contradiction|].
      intros _. split; [reflexivity|]. split; [reflexivity|]. split.
      * intros Hc. apply String.eqb_eq in Hc. rewrite Hc. discriminate.
      * intros Hc. apply String.eqb_neq in Hc. now rewrite Hc.
    + apply String.eqb_neq in E.
      split; [reflexivity|]. split; [reflexivity|]. split; [reflexivity|].
      split; [reflexivity|]. split; [reflexivity|].
      intros He. contradiction.
Qed.

Lemma step_length (s : State) (op : Op) :
  List.length (analysisResults (step s op)) =
  (List.length (analysisResults s) + (if isUploadComplete op then 1 else 0))%nat.
Proof.
  destruct op; cbn; try lia.
  rewrite <- (Forall2_length (update_ticked analysisId mock draw (analysisResults s) 0)).
  lia.
Qed.

(** X11.  A tick of the analysis [analysisId] rewrites the list entry by
    entry: no entry is added, dropped or moved, and none changes its id, file
    name, key or creation time.  Entries of other analyses are left as they
    are; an entry of this analysis takes the status and progress of the
    tick, gets results exactly when the tick says completed, and otherwise
    keeps the results it had. *)
Theorem tick_rewrites_only_its_analysis (analysisId : string)
  (mock : MockStatus) (draw : nat -> Results) (s : State) :
  Forall2 (ticked analysisId mock)
    (analysisResults s) (analysisResults (tick analysisId mock draw s))
  /\ currentImageIndex (tick analysisId mock draw s) = currentImageIndex s
  /\ (isProcessing (tick analysisId mock draw s) = true ->
      isProcessing s = true /\ m_status mock <> "completed").
Proof.
  split; [apply update_ticked|]. split; [reflexivity|].
  cbn. destruct (String.eqb (m_status mock) "completed") eqn:E.
  - discriminate.
  - intros H. split; [exact H|]. now apply String.eqb_neq.
Qed.

(** X12.  The list of analyses only grows: after any sequence of events it
    holds one entry per completed upload, the newest first. *)
Theorem one_entry_per_upload (ops : list Op) :
  List.length (analysisResults (run ops)) =
  List.length (filter isUploadComplete ops)
  /\ forall iso fileKey analysisId,
       exists e,
         analysisResults (run (ops ++ [UploadComplete iso fileKey analysisId]))
         = e :: analysisResults (run ops)
         /\ id e = analysisId /\ Demo.fileKey e = fileKey
         /\ status e = "processing" /\ progress e = 0 /\ results e = None
         /\ createdAt e = iso.
Proof.
  split.
  - unfold run. induction ops as [|op ops IH] using rev_ind; [reflexivity|].
    rewrite fold_left_app, filter_app, length_app. cbn [fold_left].
    rewrite step_length, IH. cbn [filter].
    destruct (isUploadComplete op); cbn; lia.
  - intros iso fk aid. unfold run. rewrite fold_left_app. cbn.
    eexists. split; [reflexivity|]. cbn. repeat split.
Qed.

(** The flag is shared by all analyses: the first one to complete lowers it
    while another is still processing. *)
Example flag_lowered_while_processing :
  let draw := fun _ : nat =>
    {| totalFeatures := 10; geometryTypes := ["Point"];
       boundingBox := {| north := Num.of_Z 0; south := Num.of_Z 0;
                         east := Num.of_Z 0; west := Num.of_Z 0 |};
       statistics := {| points := 0; lines := 0; polygons := 0 |} |} in
  let s := run [UploadComplete "t1" "a.kml" "analysis-1";
                UploadComplete "t2" "b.kml" "analysis-2";
                Tick "analysis-1"
                  {| m_status := "completed"; m_progress := 100 |} draw] in
  isProcessing s = false
  /\ map status (analysisResults s) = ["processing"; "completed"].
Proof. split; reflexivity. Qed.

Lemma step_index_in_range (s : State) (op : Op) :
  rendered op ->
  0 <= currentImageIndex s < length_Z ->
  0 <= currentImageIndex (step s op) < length_Z.
Proof.
  unfold length_Z. cbn [carouselImages List.length Z.of_nat].
  change (Z.of_nat 5) with 5.
  intros Hop Hs. destruct op; cbn; try assumption.
  - pose proof (Z.rem_bound_pos (currentImageIndex s + 1) 5). lia.
  - pose proof (Z.rem_bound_pos (currentImageIndex s - 1 + 5) 5). lia.
Qed.

Lemma run_index_in_range (ops : list Op) :
  Forall rendered ops -> 0 <= currentImageIndex (run ops) < length_Z.
Proof.
  unfold run. induction ops as [|op ops IH] using rev_ind; intros H.
  - cbn. unfold length_Z. cbn. lia.
  - apply Forall_app in H as [H1 H2]. rewrite fold_left_app. cbn [fold_left].
    apply step_index_in_range; [now inversion H2|now apply IH].
Qed.

(** X13.  The carousel index always names a slide: whatever the visitor
    clicks, the slide looked up by the render exists; and from any state so
    reached, next and previous undo each other. *)
Theorem carousel_index_names_a_slide (ops : list Op) :
  Forall rendered ops ->
  let s := run ops in
  currentSlide s <> None
  /\ currentImageIndex (prevImage (nextImage s)) = currentImageIndex s
  /\ currentImageIndex (nextImage (prevImage s)) = currentImageIndex s.
Proof.
  intros H. cbv zeta. pose proof (run_index_in_range H) as Hr.
  revert Hr. generalize (run ops). intros s.
  unfold length_Z. cbn [carouselImages List.length].
  change (Z.of_nat 5) with 5. intros Hr.
  assert (Hcases : currentImageIndex s = 0 \/ currentImageIndex s = 1
                   \/ currentImageIndex s = 2 \/ currentImageIndex s = 3
                   \/ currentImageIndex s = 4) by lia.
  unfold currentSlide. cbn.
  destruct Hcases as [E|[E|[E|[E|E]]]]; rewrite E; cbn;
    (split; [discriminate|split; reflexivity]).
Qed.

Lemma carousel_index_names_a_slide_witness :
  let s := run [NextImage; GoToImage 4; NextImage; PrevImage] in
  currentSlide s <> None
  /\ currentImageIndex (prevImage (nextImage s)) = currentImageIndex s
  /\ currentImageIndex (nextImage (prevImage s)) = currentImageIndex s.
Proof.
  apply (@carousel_index_names_a_slide
           [NextImage; GoToImage 4; NextImage; PrevImage]).
  repeat constructor; unfold length_Z; cbn; lia.
Defined.

(** A position outside the list would leave the render without a slide. *)
Example index_out_of_range_has_no_slide :
  currentSlide (goToImage 5 initial) = None.
Proof. reflexivity. Qed.

End Demo.

(* ===================================================================== *)
(** * From the uploaded key to the name on the page *)
(* ===================================================================== *)

Module Shown.

Lemma pop_of_segment (s seg : string) :
  Transfer.after_last "/" s seg -> JS.pop (JS.split "/" s) = Some seg.
Proof.
  intros H. destruct (pop_split "/" s) as (seg' & Hpop & Ho & Hs).
  rewrite Hpop. f_equal.
  apply (Transfer.after_last_unique (c := "/") (s := s)); [|exact H].
  split; assumption.
Qed.

Lemma or_else_of_nonempty (v d : string) :
  v <> "" -> JS.or_else (Some v) d = v.
Proof. destruct v; [contradiction|reflexivity]. Qed.

Lemma stamped_name_nonempty (now : Z) (fileName : string) :
  JS.show now ++ "-" ++ fileName <> "".
Proof. destruct (JS.show now); cbn; discriminate. Qed.

(** X14.  The key [uploadFileToS3] resolves with, for a file whose name
    holds no slash, always yields a name on the page: [handleUploadComplete]
    shows the key itself when it was taken from the URL, and the synthesised
    key without its folder otherwise; its default for an empty last segment
    is not reached. *)
Theorem uploaded_key_is_shown (now : Z) (iso name presignedUrl analysisId : string)
  (s : Demo.State) :
  JS.occurs "/" name = false ->
  let key := Api.extractFileKey now name presignedUrl in
  exists e,
    Demo.analysisResults (Demo.handleUploadComplete iso key analysisId s)
    = e :: Demo.analysisResults s
    /\ Demo.fileKey e = key
    /\ Demo.fileName e <> ""
    /\ (Demo.fileName e = key
        \/ (key = "input_kml_files/" ++ JS.show now ++ "-" ++ name
            /\ Demo.fileName e = JS.show now ++ "-" ++ name)).
Proof.
  intros Hname. cbv zeta.
  eexists. split; [reflexivity|]. cbn [Demo.fileKey Demo.fileName].
  split; [reflexivity|].
  destruct (Transfer.extractFileKey_spec now name presignedUrl)
    as (segment & key & [Hs1 Hs2] & [Hk1 Hk2] & ->).
  destruct key as [|c k]; cbn [String.eqb].
  - assert (Hpop : JS.pop (JS.split "/"
                     ("input_kml_files/" ++ JS.show now ++ "-" ++ name))
                   = Some (JS.show now ++ "-" ++ name)).
    { apply pop_of_segment. split.
      - rewrite occurs_app, FileKey.show_no_slash. cbn. exact Hname.
      - right. exists "input_kml_files". reflexivity. }
    rewrite Hpop, or_else_of_nonempty by apply stamped_name_nonempty.
    split; [apply stamped_name_nonempty|]. right. split; reflexivity.
  - assert (Hslash : JS.occurs "/" (String c k) = false).
    { destruct Hk2 as [<-|[rest Hk2]]; [assumption|].
      rewrite Hk2 in Hs1. now apply FileKey.occurs_prefix in Hs1. }
    assert (Hpop : JS.pop (JS.split "/" (String c k)) = Some (String c k)).
    { apply pop_of_segment. split; [exact Hslash|now left]. }
    rewrite Hpop. cbn [JS.or_else]. split; [discriminate|]. now left.
Qed.

Lemma uploaded_key_is_shown_witness :
  exists e,
    Demo.analysisResults
      (Demo.handleUploadComplete "2025-01-01T00:00:00.000Z"
         (Api.extractFileKey 1700000000000 "farm.kml"
            "https://bucket.s3.amazonaws.com/input_kml_files/farm.kml?sig=1")
         "analysis-1" Demo.initial)
    = e :: Demo.analysisResults Demo.initial
    /\ Demo.fileKey e =
       Api.extractFileKey 1700000000000 "farm.kml"
         "https://bucket.s3.amazonaws.com/input_kml_files/farm.kml?sig=1"
    /\ Demo.fileName e <> ""
    /\ (Demo.fileName e =
        Api.extractFileKey 1700000000000 "farm.kml"
          "https://bucket.s3.amazonaws.com/input_kml_files/farm.kml?sig=1"
        \/ (Api.extractFileKey 1700000000000 "farm.kml"
              "https://bucket.s3.amazonaws.com/input_kml_files/farm.kml?sig=1"
            = "input_kml_files/" ++ JS.show 1700000000000 ++ "-" ++ "farm.kml"
            /\ Demo.fileName e = JS.show 1700000000000 ++ "-" ++ "farm.kml")).
Proof.
  apply (@uploaded_key_is_shown 1700000000000 "2025-01-01T00:00:00.000Z"
           "farm.kml"
           "https://bucket.s3.amazonaws.com/input_kml_files/farm.kml?sig=1"
           "analysis-1" Demo.initial).
  reflexivity.
Defined.

(** The key of the example above, and the name shown for it. *)
Example farm_is_shown :
  Api.extractFileKey 1700000000000 "farm.kml"
    "https://bucket.s3.amazonaws.com/input_kml_files/farm.kml?sig=1"
  = "farm.kml"
  /\ map Demo.fileName
       (Demo.analysisResults
          (Demo.handleUploadComplete "2025-01-01T00:00:00.000Z" "farm.kml"
             "analysis-1" Demo.initial)) = ["farm.kml"].
Proof. split; reflexivity. Qed.

(** A name ending in a slash, were the browser to hand one over, would be
    shown as the default once the key has to be synthesised. *)
Example slash_in_name_reaches_default :
  map Demo.fileName
    (Demo.analysisResults
       (Demo.handleUploadComplete "2025-01-01T00:00:00.000Z"
          (Api.extractFileKey 5 "a/" "https://bucket.s3.amazonaws.com/")
          "analysis-1" Demo.initial)) = ["Unknown file"].
Proof. reflexivity. Qed.

End Shown.
